(** * gibbs_sharpe_student: Gibbs sampler for the Bayesian Sharpe ratio

    Shallow embedding of [gibbs_sharpe_student] from
    [gibbs_augmented.ipynb] and the properties stated about it.

    Numbers.  The routine computes on IEEE doubles.  They are modelled by
    [float64]: a real number or one of the special values +inf, -inf and
    NaN, with exact arithmetic on the finite values (no rounding, no
    overflow, a single zero) and the IEEE rules for the special values,
    so that the places where the code divides by zero or feeds a NaN to a
    sampling primitive are visible.

    Randomness.  numpy's global generator and the three sampling
    primitives ([scipy.stats.gamma.rvs], [numpy.random.normal],
    [scipy.stats.invgamma.rvs]) are collaborators of the routine; they are
    the fields of a [Sampler], and what is assumed of them is the record
    [SamplerLaws]. *)

From Stdlib Require Import Reals Lra ZArith Lia.
From stdpp Require Import base list.

(** ** IEEE doubles, idealised *)

Module Np.

#[local] Open Scope R_scope.

Inductive float64 : Type :=
| Fin (x : R)
| PInf
| NInf
| NaN.

Definition Rsign_inf (x : R) : float64 :=
  if Rlt_dec 0 x then PInf else if Rlt_dec x 0 then NInf else NaN.

Definition neg (a : float64) : float64 :=
  match a with
  | Fin x => Fin (- x)
  | PInf => NInf
  | NInf => PInf
  | NaN => NaN
  end.

Definition add (a b : float64) : float64 :=
  match a, b with
  | NaN, _ | _, NaN => NaN
  | Fin x, Fin y => Fin (x + y)
  | PInf, NInf | NInf, PInf => NaN
  | PInf, _ | _, PInf => PInf
  | NInf, _ | _, NInf => NInf
  end.

Definition sub (a b : float64) : float64 := add a (neg b).

Definition mul (a b : float64) : float64 :=
  match a, b with
  | NaN, _ | _, NaN => NaN
  | Fin x, Fin y => Fin (x * y)
  | Fin x, PInf | PInf, Fin x => Rsign_inf x
  | Fin x, NInf | NInf, Fin x => Rsign_inf (- x)
  | PInf, PInf | NInf, NInf => PInf
  | PInf, NInf | NInf, PInf => NInf
  end.

(** numpy's true division: dividing by zero raises nothing, it yields an
    infinity, or NaN for 0/0 (and a RuntimeWarning). *)
Definition div (a b : float64) : float64 :=
  match a, b with
  | NaN, _ | _, NaN => NaN
  | Fin x, Fin y => if Req_dec_T y 0 then Rsign_inf x else Fin (x / y)
  | Fin _, (PInf | NInf) => Fin 0
  | (PInf | NInf), (PInf | NInf) => NaN
  | PInf, Fin y => if Rlt_dec y 0 then NInf else PInf
  | NInf, Fin y => if Rlt_dec y 0 then PInf else NInf
  end.

(** [np.sqrt]: NaN below zero (and a RuntimeWarning). *)
Definition sqrt (a : float64) : float64 :=
  match a with
  | Fin x => if Rlt_dec x 0 then NaN else Fin (R_sqrt.sqrt x)
  | PInf => PInf
  | NInf | NaN => NaN
  end.

(** [x ** 2] on an array: numpy squares. *)
Definition square (a : float64) : float64 := mul a a.

Definition of_Z (z : Z) : float64 := Fin (IZR z).

(** [np.sum]: the sum of no element is 0. *)
Definition sum (l : list float64) : float64 := foldl add (Fin 0) l.

(** [np.mean(a)]: the sum divided by the number of elements. *)
Definition mean (l : list float64) : float64 :=
  div (sum l) (of_Z (Z.of_nat (length l))).

(** [np.var(a, ddof=d)]: the sum of the squared deviations from the mean,
    divided by [max(len(a) - d, 0)]. *)
Definition var (ddof : Z) (l : list float64) : float64 :=
  let arrmean := mean l in
  let x := map (fun a => sub a arrmean) l in
  div (sum (map square x)) (of_Z (Z.max (Z.of_nat (length l) - ddof) 0)).

(** Elementwise product of two arrays of one length. *)
Definition mul_arr (a b : list float64) : list float64 := zip_with mul a b.

(** Finite, finite and positive, finite and not negative. *)
Definition is_fin (a : float64) : Prop := exists x, a = Fin x.
Definition is_pos (a : float64) : Prop := exists x, a = Fin x /\ 0 < x.
Definition is_nonneg (a : float64) : Prop := exists x, a = Fin x /\ 0 <= x.

(** The sample statistics on the reals, in the specification's words. *)

Definition Rsum (xs : list R) : R := foldr Rplus 0 xs.

Definition sample_mean (xs : list R) : R := Rsum xs / INR (length xs).

Definition sample_variance (xs : list R) : R :=
  Rsum (map (fun x => (x - sample_mean xs) * (x - sample_mean xs)) xs)
  / (INR (length xs) - 1).

End Np.

Import Np.

(** ** The Python side: exceptions, integers, slices *)

(** The two exceptions that can leave the routine. *)
Inductive exn : Type :=
| ZeroDivisionError
| ValueError.

(** [a[b:]] on a one-dimensional array of length [len] starts at index
    [slice_start b len]: a negative [b] counts from the end, and the start
    is clamped to the array. *)
Definition slice_start (b : Z) (len : nat) : nat :=
  Z.to_nat (if (b <? 0)%Z then Z.max (Z.of_nat len + b) 0
            else Z.min b (Z.of_nat len)).

Definition py_slice_from {A} (b : Z) (a : list A) : list A :=
  drop (slice_start b (length a)) a.

(** ** The random generator and the sampling primitives *)

(** A request made to the generator, in the order the requests are made. *)
Inductive event : Type :=
| EvSeed (seed : Z)
| EvGamma (a : float64) (scale : list float64)
| EvNormal (loc scale : float64)
| EvInvGamma (a scale : float64).

(** numpy's global generator.  [random_seed] is [np.random.seed]: the new
    state depends on the seed alone.  A primitive answers [None] when it
    raises [ValueError] on its parameters. *)
Record Sampler : Type := {
  rng : Type;
  random_seed : Z -> option rng;
  gamma_rvs : float64 -> list float64 -> rng -> option (list float64 * rng);
  random_normal : float64 -> float64 -> rng -> option (float64 * rng);
  invgamma_rvs : float64 -> float64 -> rng -> option (float64 * rng)
}.

(** What is assumed of the primitives: on parameters of their domain they
    return a draw of the support of their distribution (a positive real
    for Gamma and Inverse-Gamma, a real for Normal), one per scale for the
    vectorised Gamma draw, so that the arrays the routine multiplies
    elementwise have one length; and a NaN scale is a domain error
    ([rv_generic.rvs] checks [scale >= 0] before drawing). *)
Record SamplerLaws (P : Sampler) : Prop := {
  gamma_rvs_ok : forall a scale g,
    is_pos a -> Forall is_pos scale ->
    exists out g', gamma_rvs P a scale g = Some (out, g') /\
                   length out = length scale /\ Forall is_pos out;
  gamma_rvs_nan : forall a scale g,
    NaN ∈ scale -> gamma_rvs P a scale g = None;
  random_normal_ok : forall loc scale g,
    is_fin loc -> is_nonneg scale ->
    exists x g', random_normal P loc scale g = Some (Fin x, g');
  invgamma_rvs_ok : forall a scale g,
    is_pos a -> is_pos scale ->
    exists x g', invgamma_rvs P a scale g = Some (Fin x, g') /\ (0 < x)%R
}.

(** ** The routine *)

(** The hyperparameters, with Python's types: floats and integers. *)
Record hyper : Type := {
  nu : float64;
  n_iter : Z;
  burn_in : Z;
  mu0 : float64;
  tau2 : float64;
  a0 : float64;
  b0 : float64;
  seed : Z
}.

(** The local variables that live across iterations. *)
Record locals : Type := {
  mu : float64;
  sigma2 : float64;
  lambdas : list float64;
  mu_samples : list float64;
  sigma2_samples : list float64;
  sharpe_samples : list float64
}.

Section Gibbs.

Context (P : Sampler).

(** A computation reads the generator's state and ends with a value or an
    exception, the new state, and the requests it made. *)
Record ran (A : Type) : Type := Ran {
  res : exn + A;
  gen : rng P;
  log : list event
}.
Arguments Ran {A} _ _ _.
Arguments res {A} _.
Arguments gen {A} _.
Arguments log {A} _.

Definition M (A : Type) : Type := rng P -> ran A.

#[global] Instance M_ret : MRet M := fun A x g => Ran (inr x) g [].

#[global] Instance M_bind : MBind M := fun A B f m g =>
  let r := m g in
  match res r with
  | inl e => Ran (inl e) (gen r) (log r)
  | inr x => let r' := f x (gen r) in Ran (res r') (gen r') (log r ++ log r')
  end.

Definition raise {A} (e : exn) : M A := fun g => Ran (inl e) g [].

(** A call of a primitive: the request is logged, the state advances when
    the primitive returns. *)
Definition call {A} (ev : event) (f : rng P -> option (A * rng P)) : M A :=
  fun g => match f g with
           | Some (x, g') => Ran (inr x) g' [ev]
           | None => Ran (inl ValueError) g [ev]
           end.

Definition np_random_seed (s : Z) : M unit :=
  call (EvSeed s) (fun _ => match random_seed P s with
                            | Some g' => Some (tt, g')
                            | None => None
                            end).

Definition gamma_rvs_call (a : float64) (scale : list float64) : M (list float64) :=
  call (EvGamma a scale) (gamma_rvs P a scale).

Definition np_random_normal (loc scale : float64) : M float64 :=
  call (EvNormal loc scale) (random_normal P loc scale).

Definition invgamma_rvs_call (a scale : float64) : M float64 :=
  call (EvInvGamma a scale) (invgamma_rvs P a scale).

(** [/] between two Python floats raises on a zero divisor. *)
Definition py_truediv (a b : float64) : M float64 :=
  match b with
  | Fin y => if Req_dec_T y 0 then raise ZeroDivisionError else mret (div a b)
  | _ => mret (div a b)
  end.

(** [np.zeros(k)]: a negative dimension is refused. *)
Definition np_zeros (k : Z) : M (list float64) :=
  if (k <? 0)%Z then raise ValueError else mret (replicate (Z.to_nat k) (Fin 0)).

(** [for i in range(...)]: [k] rounds of [body] from index [i] on. *)
Fixpoint for_range {A} (body : nat -> A -> M A) (i k : nat) (s : A) : M A :=
  match k with
  | O => mret s
  | S k' => s' ← body i s; for_range body (S i) k' s'
  end.

Section Run.

Variable returns : list float64.
Variable h : hyper.

(** The parameters of the three draws, as the loop body computes them. *)
Definition gamma_scale (mu sigma2 : float64) : list float64 :=
  let resids := map (fun r => sub r mu) returns in
  map (fun r => div (Fin 2) (add (nu h) (div (square r) sigma2))) resids.

Definition weighted_sq (lambdas : list float64) (mu : float64) : float64 :=
  sum (mul_arr lambdas (map (fun r => square (sub r mu)) returns)).

(** One round of the loop, lines 102-122. *)
Definition gibbs_body (i : nat) (s : locals) : M locals :=
  let n := length returns in
  shape ← py_truediv (add (nu h) (Fin 1)) (Fin 2);
  let scale := gamma_scale (mu s) (sigma2 s) in
  lambdas ← gamma_rvs_call shape scale;
  t ← py_truediv (Fin 1) (tau2 h);
  let tau2_n := div (Fin 1) (add t (div (sum lambdas) (sigma2 s))) in
  m ← py_truediv (mu0 h) (tau2 h);
  let mu_n := mul tau2_n (add m (div (sum (mul_arr lambdas returns)) (sigma2 s))) in
  mu ← np_random_normal mu_n (sqrt tau2_n);
  half_n ← py_truediv (of_Z (Z.of_nat n)) (Fin 2);
  let a_n := add (a0 h) half_n in
  let b_n := add (b0 h) (mul (Fin (1/2)) (weighted_sq lambdas mu)) in
  sigma2 ← invgamma_rvs_call a_n b_n;
  mret {| mu := mu; sigma2 := sigma2; lambdas := lambdas;
          mu_samples := <[i := mu]> (mu_samples s);
          sigma2_samples := <[i := sigma2]> (sigma2_samples s);
          sharpe_samples := <[i := div mu (sqrt sigma2)]> (sharpe_samples s) |}.

(** The state before the first round, lines 93-99. *)
Definition gibbs_init : M locals :=
  let n := length returns in
  let mu := mean returns in
  let sigma2 := var 1 returns in
  let lambdas := replicate n (Fin 1) in
  mu_samples ← np_zeros (n_iter h);
  sigma2_samples ← np_zeros (n_iter h);
  sharpe_samples ← np_zeros (n_iter h);
  mret {| mu := mu; sigma2 := sigma2; lambdas := lambdas;
          mu_samples := mu_samples; sigma2_samples := sigma2_samples;
          sharpe_samples := sharpe_samples |}.

(** The routine, lines 89-129: seed, initialise, loop, slice. *)
Definition gibbs_sharpe_student
  : M (list float64 * list float64 * list float64) :=
  _ ← np_random_seed (seed h);
  s0 ← gibbs_init;
  s ← for_range gibbs_body 0 (Z.to_nat (n_iter h)) s0;
  mret (py_slice_from (burn_in h) (mu_samples s),
        py_slice_from (burn_in h) (sigma2_samples s),
        py_slice_from (burn_in h) (sharpe_samples s)).

(** The routine stopped after [k] rounds of its loop: the chain state
    reached then, whatever the burn-in. *)
Definition gibbs_chain (k : nat) : M locals :=
  _ ← np_random_seed (seed h);
  s0 ← gibbs_init;
  for_range gibbs_body 0 k s0.

(** *** The update cycle in the specification's words *)

Definition shape_spec : float64 := div (add (nu h) (Fin 1)) (Fin 2).

Definition scale_spec (mu sigma2 : float64) : list float64 :=
  map (fun r_i => div (Fin 2) (add (nu h) (div (square (sub r_i mu)) sigma2)))
      returns.

Definition tau2_n_spec (lambdas : list float64) (sigma2 : float64) : float64 :=
  div (Fin 1) (add (div (Fin 1) (tau2 h)) (div (sum lambdas) sigma2)).

Definition mu_n_spec (lambdas : list float64) (sigma2 : float64) : float64 :=
  mul (tau2_n_spec lambdas sigma2)
      (add (div (mu0 h) (tau2 h)) (div (sum (mul_arr lambdas returns)) sigma2)).

Definition a_n_spec : float64 :=
  add (a0 h) (div (of_Z (Z.of_nat (length returns))) (Fin 2)).

Definition b_n_spec (lambdas : list float64) (mu_new : float64) : float64 :=
  add (b0 h)
      (mul (Fin (1/2))
           (sum (mul_arr lambdas (map (fun r_i => square (sub r_i mu_new)) returns)))).

(** The requests of one round on the chain state [s], given the draws
    [lambdas'] and [mu'] it obtained. *)
Definition round_events (s : locals) (lambdas' : list float64) (mu' : float64)
  : list event :=
  [ EvGamma shape_spec (scale_spec (mu s) (sigma2 s));
    EvNormal (mu_n_spec lambdas' (sigma2 s)) (sqrt (tau2_n_spec lambdas' (sigma2 s)));
    EvInvGamma a_n_spec (b_n_spec lambdas' mu') ].

End Run.

End Gibbs.

Arguments Ran {P A} _ _ _.
Arguments res {P A} _.
Arguments gen {P A} _.
Arguments log {P A} _.
Arguments raise {P A} _ _.
Arguments call {P A} _ _ _.
Arguments for_range {P A} _ _ _ _ _.

(** ** Notions used in the statements *)

(** The state before the first round, when [n_iter] is not negative. *)
Definition init_state (returns : list float64) (h : hyper) : locals :=
  {| mu := mean returns; sigma2 := var 1 returns;
     lambdas := replicate (length returns) (Fin 1);
     mu_samples := replicate (Z.to_nat (n_iter h)) (Fin 0);
     sigma2_samples := replicate (Z.to_nat (n_iter h)) (Fin 0);
     sharpe_samples := replicate (Z.to_nat (n_iter h)) (Fin 0) |}.

(** The state a round leaves, from the state it found and its draws. *)
Definition round_result (i : nat) (s : locals)
           (lambdas' : list float64) (mu' sigma2' : float64) : locals :=
  {| mu := mu'; sigma2 := sigma2'; lambdas := lambdas';
     mu_samples := <[i := mu']> (mu_samples s);
     sigma2_samples := <[i := sigma2']> (sigma2_samples s);
     sharpe_samples := <[i := div mu' (sqrt sigma2')]> (sharpe_samples s) |}.

(** What the routine returns from the state its loop ended in. *)
Definition outputs (h : hyper) (s : locals)
  : list float64 * list float64 * list float64 :=
  (py_slice_from (burn_in h) (mu_samples s),
   py_slice_from (burn_in h) (sigma2_samples s),
   py_slice_from (burn_in h) (sharpe_samples s)).

(** The requests of [k] rounds on [n] observations: each round asks for
    [n] Gamma variates, then one Normal, then one Inverse-Gamma variate. *)
Inductive rounds_log (n : nat) : nat -> list event -> Prop :=
| rounds_none : rounds_log n 0 []
| rounds_more k l a sc loc sd a' b' :
    rounds_log n k l -> length sc = n ->
    rounds_log n (S k) (l ++ [EvGamma a sc; EvNormal loc sd; EvInvGamma a' b']).

(** The variates a log asks for, by distribution. *)
Definition gamma_draws (l : list event) : nat :=
  foldr (fun e acc => match e with EvGamma _ sc => length sc + acc | _ => acc end) 0 l.

Definition normal_draws (l : list event) : nat :=
  foldr (fun e acc => match e with EvNormal _ _ => S acc | _ => acc end) 0 l.

Definition invgamma_draws (l : list event) : nat :=
  foldr (fun e acc => match e with EvInvGamma _ _ => S acc | _ => acc end) 0 l.

(** The same hyperparameters with another burn-in. *)
Definition with_burn_in (b : Z) (h : hyper) : hyper :=
  {| nu := nu h; n_iter := n_iter h; burn_in := b; mu0 := mu0 h;
     tau2 := tau2 h; a0 := a0 h; b0 := b0 h; seed := seed h |}.

(** The same hyperparameters with another number of iterations. *)
Definition with_n_iter (n : Z) (h : hyper) : hyper :=
  {| nu := nu h; n_iter := n; burn_in := burn_in h; mu0 := mu0 h;
     tau2 := tau2 h; a0 := a0 h; b0 := b0 h; seed := seed h |}.

(** A round that stops at the first request a primitive refuses: the
    generator state it leaves and the requests it has made. *)
Inductive refused_round (P : Sampler) (returns : list float64) (h : hyper)
          (s : locals) (g : rng P) : rng P -> list event -> Prop :=
| refused_gamma :
    gamma_rvs P (shape_spec h) (scale_spec returns h (mu s) (sigma2 s)) g = None ->
    refused_round P returns h s g g
      [EvGamma (shape_spec h) (scale_spec returns h (mu s) (sigma2 s))]
| refused_normal lam g1 :
    gamma_rvs P (shape_spec h) (scale_spec returns h (mu s) (sigma2 s)) g
      = Some (lam, g1) ->
    random_normal P (mu_n_spec returns h lam (sigma2 s))
                  (sqrt (tau2_n_spec h lam (sigma2 s))) g1 = None ->
    refused_round P returns h s g g1
      [EvGamma (shape_spec h) (scale_spec returns h (mu s) (sigma2 s));
       EvNormal (mu_n_spec returns h lam (sigma2 s))
                (sqrt (tau2_n_spec h lam (sigma2 s)))]
| refused_invgamma lam g1 m g2 :
    gamma_rvs P (shape_spec h) (scale_spec returns h (mu s) (sigma2 s)) g
      = Some (lam, g1) ->
    random_normal P (mu_n_spec returns h lam (sigma2 s))
                  (sqrt (tau2_n_spec h lam (sigma2 s))) g1 = Some (m, g2) ->
    invgamma_rvs P (a_n_spec returns h) (b_n_spec returns h lam m) g2 = None ->
    refused_round P returns h s g g2 (round_events returns h s lam m).

(** A chain state the next round can draw from. *)
Definition healthy (n : nat) (s : locals) : Prop :=
  is_fin (mu s) /\ is_pos (sigma2 s) /\
  Forall is_pos (lambdas s) /\ length (lambdas s) = n.

(** ** The preconditions of the routine *)

(** Finite observations and well-formed priors. *)
Record well_formed (returns : list float64) (h : hyper) : Prop := {
  wf_returns : Forall is_fin returns;
  wf_nu : is_pos (nu h);
  wf_mu0 : is_fin (mu0 h);
  wf_tau2 : is_pos (tau2 h);
  wf_a0 : is_pos (a0 h);
  wf_b0 : is_pos (b0 h)
}.

(** What the rounds of the loop use of them: of [a0], only that the
    posterior shape [a0 + n/2] is positive. *)
Record drawable (returns : list float64) (h : hyper) : Prop := {
  dr_returns : Forall is_fin returns;
  dr_nu : is_pos (nu h);
  dr_mu0 : is_fin (mu0 h);
  dr_tau2 : is_pos (tau2 h);
  dr_a_n : is_pos (a_n_spec returns h);
  dr_b0 : is_pos (b0 h)
}.

(** The documented preconditions. *)
Record valid (returns : list float64) (h : hyper) : Prop := {
  valid_wf : well_formed returns h;
  valid_n : 2 <= length returns;
  valid_n_iter : (0 < n_iter h)%Z;
  valid_burn_in : (0 <= burn_in h < n_iter h)%Z
}.

(** ** A generator to run the routine on

    Every draw returns a fixed point of the support of its distribution:
    the mean [a * scale] of the Gamma distribution, the mean [loc] of the
    Normal distribution, the mode [scale / (a + 1)] of the Inverse-Gamma
    distribution.  The state counts the variates drawn.  The parameters
    are checked as numpy and scipy check them. *)

Module Fixed.

Definition positive (a : float64) : bool :=
  match a with
  | Fin x => if Rlt_dec 0 x then true else false
  | PInf => true
  | _ => false
  end.

Definition nonnegative (a : float64) : bool :=
  match a with
  | Fin x => if Rle_dec 0 x then true else false
  | PInf => true
  | _ => false
  end.

Definition negative (a : float64) : bool :=
  match a with
  | Fin x => if Rlt_dec x 0 then true else false
  | NInf => true
  | _ => false
  end.

Definition seed (s : Z) : option nat :=
  if ((0 <=? s) && (s <? 2 ^ 32))%Z then Some 0 else None.

Definition gamma (a : float64) (scale : list float64) (g : nat)
  : option (list float64 * nat) :=
  if positive a && forallb nonnegative scale
  then Some (map (mul a) scale, g + length scale)
  else None.

Definition normal (loc scale : float64) (g : nat) : option (float64 * nat) :=
  if negative scale then None else Some (add loc (mul scale (Fin 0)), S g).

Definition invgamma (a scale : float64) (g : nat) : option (float64 * nat) :=
  if positive a && nonnegative scale
  then Some (div scale (add a (Fin 1)), S g)
  else None.

Definition sampler : Sampler :=
  {| rng := nat; random_seed := seed; gamma_rvs := gamma;
     random_normal := normal; invgamma_rvs := invgamma |}.

End Fixed.

(** ** Inputs to run the routine on *)

Module Ex.

(** The defaults of the signature, with three rounds of which one is
    burnt in. *)
Definition defaults : hyper :=
  {| nu := Fin 3; n_iter := 3; burn_in := 1; mu0 := Fin 0; tau2 := Fin 1000;
     a0 := Fin 2; b0 := Fin 2; seed := 42 |}.

(** Two observations that differ, two that do not, and a single one. *)
Definition two : list float64 := [Fin 1; Fin 2].
Definition constant : list float64 := [Fin 1; Fin 1].

End Ex.

(** * Proofs *)

(** ** Slices and special values on small inputs *)

Example slice_from_inside : py_slice_from 1 [10; 20; 30] = [20; 30].
Proof. reflexivity. Qed.

Example slice_from_zero : py_slice_from 0 [10; 20; 30] = [10; 20; 30].
Proof. reflexivity. Qed.

Example slice_from_beyond : py_slice_from 5 [10; 20; 30] = [].
Proof. reflexivity. Qed.

Example slice_from_the_end : py_slice_from (-1) [10; 20; 30] = [30].
Proof. reflexivity. Qed.

Example slice_from_before_the_start : py_slice_from (-7) [10; 20; 30] = [10; 20; 30].
Proof. reflexivity. Qed.

Example draws_of_a_round :
  let l := [EvGamma (Fin 2) [Fin 1; Fin 1]; EvNormal (Fin 0) (Fin 1);
            EvInvGamma (Fin 3) (Fin 2)] in
  gamma_draws l = 2 /\ normal_draws l = 1 /\ invgamma_draws l = 1.
Proof. repeat split. Qed.

(** ** Arithmetic on finite values *)

Section NpFacts.

#[local] Open Scope R_scope.

Example one_over_zero : div (Fin 1) (Fin 0) = PInf.
Proof.
  unfold div. destruct (Req_dec_T 0 0) as [_ | Hn]; [| contradiction Hn; reflexivity].
  unfold Rsign_inf. destruct (Rlt_dec 0 1); [reflexivity | lra].
Qed.

Example sqrt_of_negative : sqrt (Fin (-1)) = NaN.
Proof. unfold sqrt. destruct (Rlt_dec (-1) 0); [reflexivity | lra]. Qed.

Example inf_minus_inf : sub PInf PInf = NaN.
Proof. reflexivity. Qed.

Lemma div_Fin x y : y <> 0 -> div (Fin x) (Fin y) = Fin (x / y).
Proof. intros Hy. unfold div. destruct (Req_dec_T y 0); [contradiction | reflexivity]. Qed.

Lemma div_zero_zero : div (Fin 0) (Fin 0) = NaN.
Proof.
  unfold div. destruct (Req_dec_T 0 0) as [_ | Hn]; [| contradiction Hn; reflexivity].
  unfold Rsign_inf. destruct (Rlt_dec 0 0); [lra | reflexivity].
Qed.

Lemma sqrt_Fin x : 0 <= x -> sqrt (Fin x) = Fin (R_sqrt.sqrt x).
Proof. intros Hx. unfold sqrt. destruct (Rlt_dec x 0); [lra | reflexivity]. Qed.

Lemma add_NaN_r a : add a NaN = NaN.
Proof. destruct a; reflexivity. Qed.

Lemma div_NaN_r a : div a NaN = NaN.
Proof. destruct a; reflexivity. Qed.

Lemma foldl_add_Fin (xs : list R) (a : R) :
  foldl add (Fin a) (map Fin xs) = Fin (a + Rsum xs).
Proof.
  revert a. induction xs as [| x xs IH]; intros a; simpl.
  - f_equal. lra.
  - rewrite IH. f_equal. lra.
Qed.

Lemma sum_Fin (xs : list R) : sum (map Fin xs) = Fin (Rsum xs).
Proof. unfold sum. rewrite foldl_add_Fin. f_equal. lra. Qed.

Lemma Forall_is_fin_map (l : list float64) :
  Forall is_fin l -> exists xs, l = map Fin xs.
Proof.
  induction 1 as [| a l [x ->] _ [xs ->]].
  - exists []. reflexivity.
  - exists (x :: xs). reflexivity.
Qed.

Lemma Rsum_nonneg (xs : list R) : Forall (fun x => 0 <= x) xs -> 0 <= Rsum xs.
Proof. induction 1; simpl; lra. Qed.

Lemma mean_Fin (xs : list R) :
  xs <> [] -> mean (map Fin xs) = Fin (sample_mean xs).
Proof.
  intros Hne. unfold mean, sample_mean, of_Z.
  rewrite sum_Fin, length_map, <- INR_IZR_INZ.
  apply div_Fin. apply not_0_INR. destruct xs; [contradiction | discriminate].
Qed.

Lemma var_Fin (xs : list R) :
  (2 <= length xs)%nat -> var 1 (map Fin xs) = Fin (sample_variance xs).
Proof.
  intros Hn. unfold var, sample_variance.
  rewrite mean_Fin by (destruct xs; [simpl in Hn; lia | discriminate]).
  rewrite !map_map. simpl.
  change (fun x => Fin ((x + - sample_mean xs) * (x + - sample_mean xs)))
    with (fun x => Fin ((fun y => (y + - sample_mean xs) * (y + - sample_mean xs)) x)).
  rewrite <- (map_map _ Fin), sum_Fin, length_map.
  unfold of_Z. rewrite Z.max_l by lia.
  rewrite minus_IZR, <- INR_IZR_INZ.
  assert (Hle : 2 <= INR (length xs)) by (apply (le_INR 2); exact Hn).
  rewrite div_Fin by lra. reflexivity.
Qed.

End NpFacts.

(** ** Running computations *)

Section MonadFacts.

Context {P : Sampler}.

Lemma ran_eta {A} (r : ran P A) : Ran (res r) (gen r) (log r) = r.
Proof. destruct r; reflexivity. Qed.

Lemma bind_inr {A B} (m : M P A) (f : A -> M P B) g x g1 l1 :
  m g = Ran (inr x) g1 l1 ->
  (m ≫= f) g = Ran (res (f x g1)) (gen (f x g1)) (l1 ++ log (f x g1)).
Proof. intros Hm. unfold mbind, M_bind. rewrite Hm. reflexivity. Qed.

Lemma bind_inl {A B} (m : M P A) (f : A -> M P B) g e g1 l1 :
  m g = Ran (inl e) g1 l1 -> (m ≫= f) g = Ran (inl e) g1 l1.
Proof. intros Hm. unfold mbind, M_bind. rewrite Hm. reflexivity. Qed.

Lemma bind_yields {A B} (m : M P A) (f : A -> M P B) g x g1 l1 r g2 l2 :
  m g = Ran (inr x) g1 l1 -> f x g1 = Ran r g2 l2 ->
  (m ≫= f) g = Ran r g2 (l1 ++ l2).
Proof. intros Hm Hf. rewrite (bind_inr _ _ _ _ _ _ Hm), Hf. reflexivity. Qed.

Lemma bind_inv {A B} (m : M P A) (f : A -> M P B) g y g2 l :
  (m ≫= f) g = Ran (inr y) g2 l ->
  exists x g1 l1 l2,
    m g = Ran (inr x) g1 l1 /\ f x g1 = Ran (inr y) g2 l2 /\ l = l1 ++ l2.
Proof.
  unfold mbind, M_bind. destruct (m g) as [[e | x] g1 l1]; simpl; [discriminate |].
  intros H. injection H as Hr Hg Hl.
  exists x, g1, l1, (log (f x g1)). split; [reflexivity |].
  split; [| symmetry; exact Hl].
  rewrite <- Hr, <- Hg. symmetry. apply ran_eta.
Qed.

Lemma bind_ret_l {A B} (x : A) (f : A -> M P B) g : (mret x ≫= f) g = f x g.
Proof. unfold mbind, M_bind, mret, M_ret. simpl. apply ran_eta. Qed.

Lemma bind_assoc {A B C} (m : M P A) (f : A -> M P B) (k : B -> M P C) g :
  ((m ≫= f) ≫= k) g = (m ≫= (fun x => f x ≫= k)) g.
Proof.
  unfold mbind, M_bind. destruct (m g) as [[e | x] g1 l1]; simpl; [reflexivity |].
  destruct (f x g1) as [[e | y] g2 l2]; simpl; [reflexivity |].
  rewrite app_assoc. reflexivity.
Qed.

Lemma bind_ext {A B} (m : M P A) (f f' : A -> M P B) g :
  (forall x g1, f x g1 = f' x g1) -> (m ≫= f) g = (m ≫= f') g.
Proof.
  intros Hf. unfold mbind, M_bind. destruct (m g) as [[e | x] g1 l1]; simpl;
    [reflexivity | rewrite Hf; reflexivity].
Qed.

Lemma py_truediv_zero (a : float64) g :
  py_truediv P a (Fin 0) g = Ran (inl ZeroDivisionError) g [].
Proof.
  unfold py_truediv. destruct (Req_dec_T 0 0) as [_ | Hn]; [reflexivity |].
  contradiction Hn; reflexivity.
Qed.

Lemma py_truediv_inv (a b : float64) g x g' l :
  py_truediv P a b g = Ran (inr x) g' l -> x = div a b /\ g' = g /\ l = [].
Proof.
  unfold py_truediv. destruct b as [y | | |];
    [destruct (Req_dec_T y 0); [discriminate |] | | |];
    intros H; injection H as <- <- <-; auto.
Qed.

Lemma call_inv {A} ev (f : rng P -> option (A * rng P)) g x g' l :
  call ev f g = Ran (inr x) g' l -> f g = Some (x, g') /\ l = [ev].
Proof.
  unfold call. destruct (f g) as [[y g1] |]; [| discriminate].
  intros H; injection H as <- <- <-; auto.
Qed.

Lemma call_some {A} ev (f : rng P -> option (A * rng P)) g x g' :
  f g = Some (x, g') -> call ev f g = Ran (inr x) g' [ev].
Proof. intros H. unfold call. rewrite H. reflexivity. Qed.

Lemma call_none {A} ev (f : rng P -> option (A * rng P)) g :
  f g = None -> call ev f g = Ran (inl ValueError) g [ev].
Proof. intros H. unfold call. rewrite H. reflexivity. Qed.

(** *** The loop *)

Lemma for_range_snoc {A} (body : nat -> A -> M P A) k i s g :
  for_range body i (S k) s g = (for_range body i k s ≫= body (i + k)) g.
Proof.
  revert i s g. induction k as [| k IH]; intros i s g.
  - simpl. rewrite bind_ret_l. replace (i + 0) with i by lia.
    unfold mbind, M_bind. destruct (body i s g) as [[e | x] g1 l1]; simpl;
      [reflexivity | rewrite app_nil_r; reflexivity].
  - change (for_range body i (S (S k)) s)
      with (body i s ≫= for_range body (S i) (S k)).
    change (for_range body i (S k) s)
      with (body i s ≫= for_range body (S i) k).
    rewrite bind_assoc. apply bind_ext. intros x g1.
    rewrite IH. replace (S i + k) with (i + S k) by lia. reflexivity.
Qed.

Lemma for_range_snoc_inv {A} (body : nat -> A -> M P A) k i s g s' g' l :
  for_range body i (S k) s g = Ran (inr s') g' l ->
  exists s1 g1 l1 l2,
    for_range body i k s g = Ran (inr s1) g1 l1 /\
    body (i + k) s1 g1 = Ran (inr s') g' l2 /\ l = l1 ++ l2.
Proof. rewrite for_range_snoc. apply bind_inv. Qed.

(** An invariant of the rounds holds after any number of them. *)
Lemma for_range_invariant {A} (body : nat -> A -> M P A)
      (I : nat -> A -> rng P -> list event -> Prop) (s0 : A) (g0 : rng P) :
  I 0 s0 g0 [] ->
  (forall i s g l s' g' l', I i s g l ->
     body i s g = Ran (inr s') g' l' -> I (S i) s' g' (l ++ l')) ->
  forall k s g l, for_range body 0 k s0 g0 = Ran (inr s) g l -> I k s g l.
Proof.
  intros H0 Hstep. induction k as [| k IH]; intros s g l Hrun.
  - simpl in Hrun. injection Hrun as <- <- <-. exact H0.
  - apply for_range_snoc_inv in Hrun as (s1 & g1 & l1 & l2 & Hk & Hb & ->).
    simpl in Hb. eapply Hstep; [apply IH; exact Hk | exact Hb].
Qed.

(** Rounds that all succeed under an invariant: the loop runs to its end. *)
Lemma for_range_total {A} (body : nat -> A -> M P A)
      (I : nat -> A -> Prop) (s0 : A) (g0 : rng P) :
  I 0 s0 ->
  (forall i s g, I i s ->
     exists s' g' l', body i s g = Ran (inr s') g' l' /\ I (S i) s') ->
  forall k, exists s g l, for_range body 0 k s0 g0 = Ran (inr s) g l /\ I k s.
Proof.
  intros H0 Hstep. induction k as [| k (s & g & l & Hk & HI)].
  - exists s0, g0, []. split; [reflexivity | exact H0].
  - destruct (Hstep k s g HI) as (s' & g' & l' & Hb & HI').
    exists s', g', (l ++ l'). split; [| exact HI'].
    rewrite for_range_snoc. eapply bind_yields; [exact Hk | exact Hb].
Qed.

End MonadFacts.

(** ** Finite, positive and non-negative values are closed under the
       arithmetic of the loop body *)

Section Closure.

#[local] Open Scope R_scope.

Ltac unpack :=
  repeat match goal with
         | H : is_fin _ |- _ => destruct H as [? ->]
         | H : is_pos _ |- _ => destruct H as (? & -> & ?)
         | H : is_nonneg _ |- _ => destruct H as (? & -> & ?)
         end.

Lemma is_pos_fin a : is_pos a -> is_fin a.
Proof. intros (x & -> & _). exists x. reflexivity. Qed.

Lemma is_pos_nonneg a : is_pos a -> is_nonneg a.
Proof. intros (x & -> & Hx). exists x. split; [reflexivity | lra]. Qed.

Lemma is_pos_not_zero a : is_pos a -> a <> Fin 0.
Proof. intros (x & -> & Hx) [= Heq]. lra. Qed.

Lemma is_fin_add a b : is_fin a -> is_fin b -> is_fin (add a b).
Proof. intros. unpack. eexists. reflexivity. Qed.

Lemma is_fin_sub a b : is_fin a -> is_fin b -> is_fin (sub a b).
Proof. intros. unpack. eexists. reflexivity. Qed.

Lemma is_fin_mul a b : is_fin a -> is_fin b -> is_fin (mul a b).
Proof. intros. unpack. eexists. reflexivity. Qed.

Lemma is_fin_div a b : is_fin a -> is_pos b -> is_fin (div a b).
Proof. intros. unpack. rewrite div_Fin by lra. eexists. reflexivity. Qed.

Lemma is_nonneg_square a : is_fin a -> is_nonneg (square a).
Proof.
  intros. unpack. eexists. split; [reflexivity |]. apply Rle_0_sqr.
Qed.

Lemma is_nonneg_add a b : is_nonneg a -> is_nonneg b -> is_nonneg (add a b).
Proof. intros. unpack. eexists. split; [reflexivity | lra]. Qed.

Lemma is_nonneg_mul a b : is_nonneg a -> is_nonneg b -> is_nonneg (mul a b).
Proof.
  intros. unpack. eexists. split; [reflexivity |]. apply Rmult_le_pos; assumption.
Qed.

Lemma is_nonneg_div a b : is_nonneg a -> is_pos b -> is_nonneg (div a b).
Proof.
  intros. unpack. rewrite div_Fin by lra. eexists. split; [reflexivity |].
  apply Rle_mult_inv_pos; assumption.
Qed.

Lemma is_pos_add_l a b : is_pos a -> is_nonneg b -> is_pos (add a b).
Proof. intros. unpack. eexists. split; [reflexivity | lra]. Qed.

Lemma is_pos_div a b : is_pos a -> is_pos b -> is_pos (div a b).
Proof.
  intros. unpack. rewrite div_Fin by lra. eexists. split; [reflexivity |].
  apply Rdiv_lt_0_compat; assumption.
Qed.

Lemma is_nonneg_sqrt a : is_pos a -> is_nonneg (sqrt a).
Proof.
  intros. unpack. rewrite sqrt_Fin by lra. eexists. split; [reflexivity |].
  apply sqrt_pos.
Qed.

Lemma is_pos_Fin x : 0 < x -> is_pos (Fin x).
Proof. intros. exists x. auto. Qed.

Lemma is_nonneg_of_nat n : is_nonneg (of_Z (Z.of_nat n)).
Proof.
  exists (IZR (Z.of_nat n)). split; [reflexivity |]. apply IZR_le. lia.
Qed.

Lemma is_fin_foldl_add l a : is_fin a -> Forall is_fin l -> is_fin (foldl add a l).
Proof.
  intros Ha Hl. revert a Ha. induction Hl as [| b l Hb _ IH]; intros a Ha; simpl.
  - exact Ha.
  - apply IH. apply is_fin_add; assumption.
Qed.

Lemma is_nonneg_foldl_add l a :
  is_nonneg a -> Forall is_nonneg l -> is_nonneg (foldl add a l).
Proof.
  intros Ha Hl. revert a Ha. induction Hl as [| b l Hb _ IH]; intros a Ha; simpl.
  - exact Ha.
  - apply IH. apply is_nonneg_add; assumption.
Qed.

Lemma is_fin_sum l : Forall is_fin l -> is_fin (sum l).
Proof. apply is_fin_foldl_add. exists 0. reflexivity. Qed.

Lemma is_nonneg_sum l : Forall is_nonneg l -> is_nonneg (sum l).
Proof. apply is_nonneg_foldl_add. exists 0. split; [reflexivity | lra]. Qed.

Lemma Forall_mul_arr (F G H : float64 -> Prop) a b :
  (forall x y, F x -> G y -> H (mul x y)) ->
  Forall F a -> Forall G b -> Forall H (mul_arr a b).
Proof.
  intros Hmul Ha. revert b. induction Ha as [| x a Hx _ IH]; intros b Hb.
  - constructor.
  - destruct Hb as [| y b Hy Hb]; simpl; constructor; auto.
Qed.

End Closure.

(** ** One round of the loop *)

Section Round.

Context {P : Sampler}.
Variable returns : list float64.
Variable h : hyper.

Lemma gamma_scale_spec m sg : gamma_scale returns h m sg = scale_spec returns h m sg.
Proof. unfold gamma_scale, scale_spec. rewrite map_map. reflexivity. Qed.

Lemma py_truediv_ok (a b : float64) (g : rng P) :
  b <> Fin 0 -> py_truediv P a b g = Ran (inr (div a b)) g [].
Proof.
  intros Hb. unfold py_truediv. destruct b as [y | | |]; try reflexivity.
  destruct (Req_dec_T y 0) as [-> | _]; [contradiction Hb; reflexivity | reflexivity].
Qed.

(** A round that returns made its three draws in the order Gamma, Normal,
    Inverse-Gamma, each on the generator state left by the one before. *)
Lemma gibbs_body_inv i s g s' g' l :
  gibbs_body P returns h i s g = Ran (inr s') g' l ->
  exists lam g1 m g2 sg,
    gamma_rvs P (shape_spec h) (scale_spec returns h (mu s) (sigma2 s)) g
      = Some (lam, g1) /\
    random_normal P (mu_n_spec returns h lam (sigma2 s))
                  (sqrt (tau2_n_spec h lam (sigma2 s))) g1 = Some (m, g2) /\
    invgamma_rvs P (a_n_spec returns h) (b_n_spec returns h lam m) g2
      = Some (sg, g') /\
    s' = round_result i s lam m sg /\
    l = round_events returns h s lam m.
Proof.
  unfold gibbs_body. rewrite gamma_scale_spec. intros Hrun.
  apply bind_inv in Hrun as (shape & g01 & l01 & l02 & Hshape & Hrun & ->).
  apply py_truediv_inv in Hshape as (-> & -> & ->).
  apply bind_inv in Hrun as (lam & g1 & l11 & l12 & Hgam & Hrun & ->).
  apply call_inv in Hgam as (Hgam & ->).
  apply bind_inv in Hrun as (t & g11 & l21 & l22 & Ht & Hrun & ->).
  apply py_truediv_inv in Ht as (-> & -> & ->).
  apply bind_inv in Hrun as (m0 & g12 & l31 & l32 & Hm0 & Hrun & ->).
  apply py_truediv_inv in Hm0 as (-> & -> & ->).
  apply bind_inv in Hrun as (m & g2 & l41 & l42 & Hnorm & Hrun & ->).
  apply call_inv in Hnorm as (Hnorm & ->).
  apply bind_inv in Hrun as (hn & g21 & l51 & l52 & Hhn & Hrun & ->).
  apply py_truediv_inv in Hhn as (-> & -> & ->).
  apply bind_inv in Hrun as (sg & g3 & l61 & l62 & Hinv & Hrun & ->).
  apply call_inv in Hinv as (Hinv & ->).
  injection Hrun as <- <- <-.
  exists lam, g1, m, g2, sg.
  split; [exact Hgam |]. split; [exact Hnorm |]. split; [exact Hinv |].
  split; reflexivity.
Qed.

(** Conversely, three draws that succeed make the round, unless [tau2]
    is zero. *)
Lemma gibbs_body_run i s g lam g1 m g2 sg g3 :
  tau2 h <> Fin 0 ->
  gamma_rvs P (shape_spec h) (scale_spec returns h (mu s) (sigma2 s)) g
    = Some (lam, g1) ->
  random_normal P (mu_n_spec returns h lam (sigma2 s))
                (sqrt (tau2_n_spec h lam (sigma2 s))) g1 = Some (m, g2) ->
  invgamma_rvs P (a_n_spec returns h) (b_n_spec returns h lam m) g2
    = Some (sg, g3) ->
  gibbs_body P returns h i s g
  = Ran (inr (round_result i s lam m sg)) g3 (round_events returns h s lam m).
Proof.
  intros Htau Hgam Hnorm Hinv. unfold gibbs_body. rewrite gamma_scale_spec.
  assert (H2 : Fin 2 <> Fin 0) by (intros [= H2]; lra).
  change (round_events returns h s lam m)
    with ([] ++ [EvGamma (shape_spec h) (scale_spec returns h (mu s) (sigma2 s))]
          ++ [] ++ []
          ++ [EvNormal (mu_n_spec returns h lam (sigma2 s))
                       (sqrt (tau2_n_spec h lam (sigma2 s)))]
          ++ [] ++ [EvInvGamma (a_n_spec returns h) (b_n_spec returns h lam m)]
          ++ []).
  eapply bind_yields; [apply py_truediv_ok; exact H2 |].
  eapply bind_yields;
    [apply call_some; exact Hgam |].
  eapply bind_yields; [apply py_truediv_ok; exact Htau |].
  eapply bind_yields; [apply py_truediv_ok; exact Htau |].
  eapply bind_yields; [apply call_some; exact Hnorm |].
  eapply bind_yields; [apply py_truediv_ok; exact H2 |].
  eapply bind_yields; [apply call_some; exact Hinv |].
  reflexivity.
Qed.

(** With a zero [tau2] the round raises after its Gamma draw. *)
Lemma gibbs_body_tau2_zero i s g lam g1 :
  tau2 h = Fin 0 ->
  gamma_rvs P (shape_spec h) (scale_spec returns h (mu s) (sigma2 s)) g
    = Some (lam, g1) ->
  gibbs_body P returns h i s g
  = Ran (inl ZeroDivisionError) g1
        [EvGamma (shape_spec h) (scale_spec returns h (mu s) (sigma2 s))].
Proof.
  intros Htau Hgam. unfold gibbs_body. rewrite gamma_scale_spec.
  assert (H2 : Fin 2 <> Fin 0) by (intros [= H2]; lra).
  change [EvGamma (shape_spec h) (scale_spec returns h (mu s) (sigma2 s))]
    with ([] ++ [EvGamma (shape_spec h) (scale_spec returns h (mu s) (sigma2 s))]
          ++ []).
  eapply bind_yields; [apply py_truediv_ok; exact H2 |].
  eapply bind_yields;
    [apply call_some; exact Hgam |].
  apply bind_inl. rewrite Htau. apply py_truediv_zero.
Qed.

(** A NaN among the Gamma scales makes the round raise at its first draw. *)
Lemma gibbs_body_nan_scale i s g :
  SamplerLaws P ->
  NaN ∈ scale_spec returns h (mu s) (sigma2 s) ->
  gibbs_body P returns h i s g
  = Ran (inl ValueError) g
        [EvGamma (shape_spec h) (scale_spec returns h (mu s) (sigma2 s))].
Proof.
  intros HL Hnan. unfold gibbs_body. rewrite gamma_scale_spec.
  assert (H2 : Fin 2 <> Fin 0) by (intros [= H2]; lra).
  change [EvGamma (shape_spec h) (scale_spec returns h (mu s) (sigma2 s))]
    with ([] ++ [EvGamma (shape_spec h) (scale_spec returns h (mu s) (sigma2 s))]).
  eapply bind_yields; [apply py_truediv_ok; exact H2 |].
  apply bind_inl. apply call_none.
  apply (gamma_rvs_nan P HL). exact Hnan.
Qed.

Lemma shape_spec_pos : is_pos (nu h) -> is_pos (shape_spec h).
Proof.
  intros Hnu. unfold shape_spec.
  apply is_pos_div; [| apply is_pos_Fin; lra].
  apply is_pos_add_l; [exact Hnu |]. apply is_pos_nonneg, is_pos_Fin. lra.
Qed.

Lemma scale_spec_pos m sg :
  Forall is_fin returns -> is_pos (nu h) -> is_fin m -> is_pos sg ->
  Forall is_pos (scale_spec returns h m sg).
Proof.
  intros Hret Hnu Hm Hsg. unfold scale_spec. apply List.Forall_map.
  eapply Forall_impl; [exact Hret |]. intros r Hr. cbv beta.
  apply is_pos_div; [apply is_pos_Fin; lra |]. apply is_pos_add_l; [exact Hnu |].
  apply is_nonneg_div; [| exact Hsg].
  apply is_nonneg_square, is_fin_sub; assumption.
Qed.

Lemma well_formed_drawable : well_formed returns h -> drawable returns h.
Proof.
  intros [Hret Hnu Hmu0 Htau Ha0 Hb0]. split; try assumption.
  unfold a_n_spec. apply is_pos_add_l; [exact Ha0 |].
  apply is_nonneg_div; [apply is_nonneg_of_nat | apply is_pos_Fin; lra].
Qed.

(** On a state with a finite [mu] and a positive [sigma2] the three draws
    are made on parameters of their domains, and the round returns such a
    state again. *)
Lemma gibbs_body_ok i s g :
  SamplerLaws P -> drawable returns h ->
  is_fin (mu s) -> is_pos (sigma2 s) ->
  exists lam m sg g',
    gibbs_body P returns h i s g
    = Ran (inr (round_result i s lam m sg)) g' (round_events returns h s lam m) /\
    Forall is_pos lam /\ length lam = length returns /\
    is_fin m /\ is_pos sg.
Proof.
  intros HL [Hret Hnu Hmu0 Htau Han Hb0] Hmu Hsg.
  assert (H1 : is_pos (Fin 1)) by (apply is_pos_Fin; lra).
  assert (H2 : is_pos (Fin 2)) by (apply is_pos_Fin; lra).
  assert (Hshape := shape_spec_pos Hnu).
  assert (Hscale := scale_spec_pos (mu s) (sigma2 s) Hret Hnu Hmu Hsg).
  destruct (gamma_rvs_ok P HL _ _ g Hshape Hscale)
    as (lam & g1 & Hgam & Hlen & Hlam).
  assert (Htn : is_pos (tau2_n_spec h lam (sigma2 s))).
  { unfold tau2_n_spec. apply is_pos_div; [exact H1 |].
    apply is_pos_add_l; [apply is_pos_div; assumption |].
    apply is_nonneg_div; [| exact Hsg]. apply is_nonneg_sum.
    eapply Forall_impl; [exact Hlam | apply is_pos_nonneg]. }
  assert (Hmn : is_fin (mu_n_spec returns h lam (sigma2 s))).
  { unfold mu_n_spec. apply is_fin_mul; [apply is_pos_fin; exact Htn |].
    apply is_fin_add; [apply is_fin_div; assumption |].
    apply is_fin_div; [| exact Hsg]. apply is_fin_sum.
    apply (Forall_mul_arr is_pos is_fin); [| assumption | assumption].
    intros x y Hx Hy. apply is_fin_mul; [apply is_pos_fin |]; assumption. }
  destruct (random_normal_ok P HL _ _ g1 Hmn (is_nonneg_sqrt _ Htn))
    as (m & g2 & Hnorm).
  assert (Hbn : is_pos (b_n_spec returns h lam (Fin m))).
  { unfold b_n_spec. apply is_pos_add_l; [exact Hb0 |].
    apply is_nonneg_mul; [exists (1/2)%R; split; [reflexivity | lra] |].
    apply is_nonneg_sum.
    apply (Forall_mul_arr is_pos is_nonneg); [| exact Hlam |].
    - intros x y Hx Hy. apply is_nonneg_mul; [apply is_pos_nonneg |]; assumption.
    - apply List.Forall_map. eapply Forall_impl; [exact Hret |].
      intros r Hr. cbv beta. apply is_nonneg_square, is_fin_sub; [exact Hr |].
      exists m. reflexivity. }
  destruct (invgamma_rvs_ok P HL _ _ g2 Han Hbn) as (sg & g3 & Hinv & Hpos).
  exists lam, (Fin m), (Fin sg), g3.
  split; [| split; [exact Hlam | split; [| split]]].
  - eapply gibbs_body_run; [apply is_pos_not_zero; exact Htau | | |]; eassumption.
  - rewrite Hlen. unfold scale_spec. apply length_map.
  - exists m. reflexivity.
  - exists sg. auto.
Qed.

End Round.

(** ** The chain *)

Section Chain.

Context {P : Sampler}.
Variable returns : list float64.
Variable h : hyper.

Lemma np_zeros_ok (g : rng P) :
  (0 <= n_iter h)%Z ->
  np_zeros P (n_iter h) g = Ran (inr (replicate (Z.to_nat (n_iter h)) (Fin 0))) g [].
Proof.
  intros Hn. unfold np_zeros. destruct (Z.ltb_spec (n_iter h) 0); [lia | reflexivity].
Qed.

Lemma np_zeros_neg (g : rng P) :
  (n_iter h < 0)%Z -> np_zeros P (n_iter h) g = Ran (inl ValueError) g [].
Proof.
  intros Hn. unfold np_zeros. destruct (Z.ltb_spec (n_iter h) 0); [reflexivity | lia].
Qed.

Lemma gibbs_init_ok (g : rng P) :
  (0 <= n_iter h)%Z ->
  gibbs_init P returns h g = Ran (inr (init_state returns h)) g [].
Proof.
  intros Hn. unfold gibbs_init.
  change (@nil event) with ([] ++ [] ++ [] ++ @nil event).
  eapply bind_yields; [apply np_zeros_ok; exact Hn |].
  eapply bind_yields; [apply np_zeros_ok; exact Hn |].
  eapply bind_yields; [apply np_zeros_ok; exact Hn |].
  reflexivity.
Qed.

Lemma gibbs_init_neg (g : rng P) :
  (n_iter h < 0)%Z -> gibbs_init P returns h g = Ran (inl ValueError) g [].
Proof.
  intros Hn. unfold gibbs_init. apply bind_inl. apply np_zeros_neg. exact Hn.
Qed.

Lemma gibbs_init_inv (g : rng P) s g' l :
  gibbs_init P returns h g = Ran (inr s) g' l ->
  (0 <= n_iter h)%Z /\ s = init_state returns h /\ g' = g /\ l = [].
Proof.
  destruct (Z.lt_ge_cases (n_iter h) 0) as [Hn | Hn].
  - rewrite gibbs_init_neg by exact Hn. discriminate.
  - rewrite gibbs_init_ok by exact Hn. intros H; injection H as <- <- <-. auto.
Qed.

Lemma np_random_seed_ok (g0 g1 : rng P) :
  random_seed P (seed h) = Some g1 ->
  np_random_seed P (seed h) g0 = Ran (inr tt) g1 [EvSeed (seed h)].
Proof. intros Hs. unfold np_random_seed, call. rewrite Hs. reflexivity. Qed.

Lemma np_random_seed_refused (g0 : rng P) :
  random_seed P (seed h) = None ->
  np_random_seed P (seed h) g0 = Ran (inl ValueError) g0 [EvSeed (seed h)].
Proof. intros Hs. unfold np_random_seed, call. rewrite Hs. reflexivity. Qed.

(** The chain is the loop run on the seeded generator from the initial
    state. *)
Lemma gibbs_chain_eq k (g0 g1 : rng P) :
  random_seed P (seed h) = Some g1 -> (0 <= n_iter h)%Z ->
  gibbs_chain P returns h k g0
  = let r := for_range (gibbs_body P returns h) 0 k (init_state returns h) g1 in
    Ran (res r) (gen r) (EvSeed (seed h) :: log r).
Proof.
  intros Hs Hn. unfold gibbs_chain.
  rewrite (bind_inr _ _ _ _ _ _ (np_random_seed_ok g0 g1 Hs)).
  rewrite (bind_inr _ _ _ _ _ _ (gibbs_init_ok g1 Hn)).
  simpl. reflexivity.
Qed.

Lemma gibbs_chain_inv k (g0 : rng P) s g l :
  gibbs_chain P returns h k g0 = Ran (inr s) g l ->
  exists g1 l',
    random_seed P (seed h) = Some g1 /\ (0 <= n_iter h)%Z /\
    for_range (gibbs_body P returns h) 0 k (init_state returns h) g1
      = Ran (inr s) g l' /\
    l = EvSeed (seed h) :: l'.
Proof.
  unfold gibbs_chain. intros Hrun.
  apply bind_inv in Hrun as ([] & g1 & l1 & l2 & Hseed & Hrun & ->).
  unfold np_random_seed in Hseed. apply call_inv in Hseed as (Hseed & ->).
  apply bind_inv in Hrun as (s0 & g2 & l3 & l4 & Hinit & Hrun & ->).
  apply gibbs_init_inv in Hinit as (Hn & -> & -> & ->).
  exists g1, l4. repeat split; try assumption.
  destruct (random_seed P (seed h)) as [g' |]; [| discriminate].
  injection Hseed as <-. reflexivity.
Qed.

Lemma gibbs_chain_yields k (g0 g1 : rng P) s g l :
  random_seed P (seed h) = Some g1 -> (0 <= n_iter h)%Z ->
  for_range (gibbs_body P returns h) 0 k (init_state returns h) g1
    = Ran (inr s) g l ->
  gibbs_chain P returns h k g0 = Ran (inr s) g (EvSeed (seed h) :: l).
Proof.
  intros Hs Hn Hrun. rewrite (gibbs_chain_eq k g0 g1 Hs Hn), Hrun. reflexivity.
Qed.

(** The routine is its chain of [n_iter] rounds followed by the slicing. *)
Lemma gibbs_sharpe_student_eq (g0 : rng P) :
  gibbs_sharpe_student P returns h g0
  = let r := gibbs_chain P returns h (Z.to_nat (n_iter h)) g0 in
    Ran (match res r with inl e => inl e | inr s => inr (outputs h s) end)
        (gen r) (log r).
Proof.
  unfold gibbs_sharpe_student, gibbs_chain, mbind, M_bind.
  destruct (np_random_seed P (seed h) g0) as [[e | []] g1 l1]; simpl;
    [reflexivity |].
  destruct (gibbs_init P returns h g1) as [[e | s0] g2 l2]; simpl;
    [reflexivity |].
  destruct (for_range (gibbs_body P returns h) 0 (Z.to_nat (n_iter h)) s0 g2)
    as [[e | s] g3 l3]; simpl; [reflexivity |].
  rewrite app_nil_r. reflexivity.
Qed.

Lemma gibbs_sharpe_student_inv (g0 : rng P) out g l :
  gibbs_sharpe_student P returns h g0 = Ran (inr out) g l ->
  exists s, gibbs_chain P returns h (Z.to_nat (n_iter h)) g0 = Ran (inr s) g l /\
            out = outputs h s.
Proof.
  rewrite gibbs_sharpe_student_eq.
  destruct (gibbs_chain P returns h (Z.to_nat (n_iter h)) g0) as [[e | s] g1 l1];
    simpl; [discriminate |].
  intros H; injection H as <- <- <-. exists s. auto.
Qed.

Lemma gibbs_sharpe_student_yields (g0 : rng P) s g l :
  gibbs_chain P returns h (Z.to_nat (n_iter h)) g0 = Ran (inr s) g l ->
  gibbs_sharpe_student P returns h g0 = Ran (inr (outputs h s)) g l.
Proof. intros Hc. rewrite gibbs_sharpe_student_eq, Hc. reflexivity. Qed.

Lemma gibbs_sharpe_student_raises (g0 : rng P) e g l :
  gibbs_chain P returns h (Z.to_nat (n_iter h)) g0 = Ran (inl e) g l ->
  gibbs_sharpe_student P returns h g0 = Ran (inl e) g l.
Proof. intros Hc. rewrite gibbs_sharpe_student_eq, Hc. reflexivity. Qed.

(** A chain that reached round [k + d] reached round [k]. *)
Lemma for_range_prefix {A} (body : nat -> A -> M P A) d k s0 g0 s g l :
  for_range body 0 (k + d) s0 g0 = Ran (inr s) g l ->
  exists s1 g1 l1, for_range body 0 k s0 g0 = Ran (inr s1) g1 l1.
Proof.
  revert s g l. induction d as [| d IH]; intros s g l Hrun.
  - replace (k + 0) with k in Hrun by lia. eauto.
  - replace (k + S d) with (S (k + d)) in Hrun by lia.
    apply for_range_snoc_inv in Hrun as (s1 & g1 & l1 & l2 & Hk & _ & _).
    eapply IH. exact Hk.
Qed.

(** *** The sample arrays *)

(** After [k] rounds the three arrays still have [n_iter] cells, and cell
    [j < k] of each holds what round [j] recorded. *)
Lemma samples_recorded k (g1 : rng P) s g l :
  k <= Z.to_nat (n_iter h) ->
  for_range (gibbs_body P returns h) 0 k (init_state returns h) g1
    = Ran (inr s) g l ->
  (length (mu_samples s) = Z.to_nat (n_iter h) /\
   length (sigma2_samples s) = Z.to_nat (n_iter h) /\
   length (sharpe_samples s) = Z.to_nat (n_iter h)) /\
  forall j, j < k ->
    exists sj gj lj,
      for_range (gibbs_body P returns h) 0 (S j) (init_state returns h) g1
        = Ran (inr sj) gj lj /\
      mu_samples s !! j = Some (mu sj) /\
      sigma2_samples s !! j = Some (sigma2 sj) /\
      sharpe_samples s !! j = Some (div (mu sj) (sqrt (sigma2 sj))).
Proof.
  revert s g l. induction k as [| k IH]; intros s g l Hk Hrun.
  - simpl in Hrun. injection Hrun as <- <- <-. simpl.
    rewrite !length_replicate. split; [auto | intros j Hj; lia].
  - pose proof Hrun as Hfull.
    apply for_range_snoc_inv in Hrun as (s1 & g2 & l1 & l2 & Hprev & Hb & ->).
    destruct (IH s1 g2 l1 ltac:(lia) Hprev) as ((Lm & Ls & Lh) & Hcells).
    apply gibbs_body_inv in Hb as (lam & g3 & m & g4 & sg & _ & _ & _ & -> & _).
    simpl. rewrite !length_insert. split; [auto |].
    intros j Hj. destruct (decide (j = k)) as [-> | Hne].
    + exists (round_result k s1 lam m sg), g, (l1 ++ l2).
      split; [exact Hfull |]. simpl.
      rewrite !list_lookup_insert_eq by lia. auto.
    + destruct (Hcells j ltac:(lia)) as (sj & gj & lj & Hj1 & Hm & Hs & Hsh).
      exists sj, gj, lj. split; [exact Hj1 |].
      rewrite !list_lookup_insert_ne by lia. auto.
Qed.

(** *** The requests *)

Lemma rounds_logged k s0 (g1 : rng P) s g l :
  for_range (gibbs_body P returns h) 0 k s0 g1 = Ran (inr s) g l ->
  rounds_log (length returns) k l.
Proof.
  apply (for_range_invariant (gibbs_body P returns h)
           (fun i _ _ l => rounds_log (length returns) i l)).
  - constructor.
  - intros i s2 g2 l2 s' g' l' Hl Hb.
    apply gibbs_body_inv in Hb as (lam & g3 & m & g4 & sg & _ & _ & _ & _ & ->).
    constructor; [exact Hl |]. unfold scale_spec. apply length_map.
Qed.

Lemma rounds_log_draws n k l :
  rounds_log n k l ->
  length l = 3 * k /\ gamma_draws l = k * n /\
  normal_draws l = k /\ invgamma_draws l = k.
Proof.
  induction 1 as [| k l a sc loc sd a' b' _ (IHl & IHg & IHn & IHi) Hsc].
  - repeat split.
  - unfold gamma_draws, normal_draws, invgamma_draws in *.
    rewrite length_app, !foldr_app. simpl.
    repeat split; [lia | | |].
    + rewrite <- IHg, Hsc. clear. induction l as [| [] l IH]; simpl; lia.
    + rewrite <- IHn. clear. induction l as [| [] l IH]; simpl; lia.
    + rewrite <- IHi. clear. induction l as [| [] l IH]; simpl; lia.
Qed.

(** *** Running to the end *)

Lemma mean_is_fin : Forall is_fin returns -> returns <> [] -> is_fin (mean returns).
Proof.
  intros Hret Hne. destruct (Forall_is_fin_map _ Hret) as [xs ->].
  rewrite mean_Fin; [eexists; reflexivity |]. intros ->. apply Hne. reflexivity.
Qed.

Lemma init_state_healthy :
  Forall is_fin returns -> returns <> [] -> is_pos (var 1 returns) ->
  healthy (length returns) (init_state returns h).
Proof.
  intros Hret Hne Hvar. split; [apply mean_is_fin; assumption |].
  split; [exact Hvar |]. simpl. split; [| apply length_replicate].
  apply Forall_replicate. exists 1%R. split; [reflexivity | lra].
Qed.

(** From a healthy state the loop runs any number of rounds, and ends in a
    healthy state. *)
Lemma rounds_complete k s0 (g1 : rng P) :
  SamplerLaws P -> drawable returns h -> healthy (length returns) s0 ->
  exists s g l,
    for_range (gibbs_body P returns h) 0 k s0 g1 = Ran (inr s) g l /\
    healthy (length returns) s.
Proof.
  intros HL Hdr H0.
  apply (for_range_total (gibbs_body P returns h)
           (fun _ s => healthy (length returns) s)); [exact H0 |].
  intros i s g (Hmu & Hsg & _ & _).
  destruct (gibbs_body_ok returns h i s g HL Hdr Hmu Hsg)
    as (lam & m & sg & g' & Hb & Hlam & Hlen & Hm & Hpos).
  exists (round_result i s lam m sg), g', (round_events returns h s lam m).
  split; [exact Hb |]. repeat split; assumption.
Qed.

End Chain.

(** ** The generator [Fixed.sampler] keeps the laws *)

Module FixedFacts.

Import Fixed.

Lemma positive_is_pos a : is_pos a -> positive a = true.
Proof.
  intros (x & -> & Hx). simpl. destruct (Rlt_dec 0 x); [reflexivity | contradiction].
Qed.

Lemma nonnegative_is_nonneg a : is_nonneg a -> nonnegative a = true.
Proof.
  intros (x & -> & Hx). simpl. destruct (Rle_dec 0 x); [reflexivity | contradiction].
Qed.

Lemma negative_is_nonneg a : is_nonneg a -> negative a = false.
Proof.
  intros (x & -> & Hx). simpl. destruct (Rlt_dec x 0); [lra | reflexivity].
Qed.

Lemma sampler_laws : SamplerLaws sampler.
Proof.
  split; simpl.
  - intros a scale g Ha Hsc. unfold gamma.
    rewrite (positive_is_pos a Ha).
    assert (Hall : forallb nonnegative scale = true).
    { apply forallb_forall. intros x Hx. apply nonnegative_is_nonneg, is_pos_nonneg.
      rewrite List.Forall_forall in Hsc. apply Hsc. exact Hx. }
    rewrite Hall. simpl. eexists _, _. split; [reflexivity |].
    split; [apply length_map |]. apply List.Forall_map.
    eapply Forall_impl; [exact Hsc |]. intros y Hy. cbv beta.
    destruct Ha as (x & -> & Hx), Hy as (z & -> & Hz).
    exists (x * z)%R. split; [reflexivity | apply Rmult_lt_0_compat; assumption].
  - intros a scale g Hnan. unfold gamma.
    assert (Hall : forallb nonnegative scale = false).
    { apply list_elem_of_In in Hnan. apply not_true_is_false. intros Hall.
      rewrite forallb_forall in Hall. specialize (Hall NaN Hnan). discriminate. }
    rewrite Hall, andb_false_r. reflexivity.
  - intros loc scale g [l ->] Hsc. unfold normal.
    rewrite (negative_is_nonneg scale Hsc). destruct Hsc as (s & -> & _).
    simpl. eexists _, _. reflexivity.
  - intros a scale g Ha Hsc. unfold invgamma.
    rewrite (positive_is_pos a Ha), (nonnegative_is_nonneg scale (is_pos_nonneg _ Hsc)).
    destruct Ha as (x & -> & Hx), Hsc as (z & -> & Hz). simpl.
    destruct (Req_dec_T (x + 1) 0) as [H0 | _]; [lra |].
    eexists _, _. split; [reflexivity |].
    apply Rdiv_lt_0_compat; lra.
Qed.

End FixedFacts.

(** ** The inputs of [Ex] *)

Module ExFacts.

Import Ex.

Lemma var_two : var 1 two = Fin (1/2).
Proof.
  change two with (map Fin [1; 2]%R). rewrite var_Fin by (simpl; lia).
  f_equal. unfold sample_variance, sample_mean, Rsum. simpl. lra.
Qed.

Lemma var_constant : var 1 constant = Fin 0.
Proof.
  change constant with (map Fin [1; 1]%R). rewrite var_Fin by (simpl; lia).
  f_equal. unfold sample_variance, sample_mean, Rsum. simpl. lra.
Qed.

Lemma two_well_formed b n : well_formed two (with_burn_in b {|
  nu := Fin 3; n_iter := n; burn_in := 0; mu0 := Fin 0; tau2 := Fin 1000;
  a0 := Fin 2; b0 := Fin 2; seed := 42 |}).
Proof.
  split; simpl.
  - repeat constructor; eexists; reflexivity.
  - exists 3%R. split; [reflexivity | lra].
  - exists 0%R. reflexivity.
  - exists 1000%R. split; [reflexivity | lra].
  - exists 2%R. split; [reflexivity | lra].
  - exists 2%R. split; [reflexivity | lra].
Qed.

Lemma two_valid : valid two defaults.
Proof.
  split; [apply (two_well_formed 1 3) | simpl; lia | simpl; lia | simpl; lia].
Qed.

Lemma constant_valid : valid constant defaults.
Proof.
  split; [| simpl; lia | simpl; lia | simpl; lia].
  destruct (two_well_formed 1 3) as [_ ? ? ? ? ?].
  split; try assumption. repeat constructor; eexists; reflexivity.
Qed.

Lemma var_two_pos : is_pos (var 1 two).
Proof. rewrite var_two. exists (1/2)%R. split; [reflexivity | lra]. Qed.

Lemma seed_accepted : random_seed Fixed.sampler 42 = Some 0.
Proof. reflexivity. Qed.

End ExFacts.

(** ** The whole run *)

Section Run.

Context {P : Sampler}.
Variable returns : list float64.
Variable h : hyper.

Lemma slice_start_nonneg (b : Z) (len : nat) :
  (0 <= b <= Z.of_nat len)%Z -> slice_start b len = Z.to_nat b.
Proof.
  intros Hb. unfold slice_start. destruct (Z.ltb_spec b 0); [lia |].
  rewrite Z.min_l by lia. reflexivity.
Qed.

Lemma slice_start_beyond (b : Z) (len : nat) :
  (Z.of_nat len <= b)%Z -> slice_start b len = len.
Proof.
  intros Hb. unfold slice_start. destruct (Z.ltb_spec b 0); [lia |].
  rewrite Z.min_r by lia. apply Nat2Z.id.
Qed.

(** The burn-in plays no part in the chain. *)
Lemma gibbs_chain_burn_in b k (g0 : rng P) :
  gibbs_chain P returns (with_burn_in b h) k g0 = gibbs_chain P returns h k g0.
Proof. reflexivity. Qed.

(** The ambient state of the generator plays no part in a chain whose
    seed is accepted. *)
Lemma gibbs_chain_seeded k (g0 g0' g1 : rng P) :
  random_seed P (seed h) = Some g1 ->
  gibbs_chain P returns h k g0 = gibbs_chain P returns h k g0'.
Proof.
  intros Hs. unfold gibbs_chain.
  rewrite (bind_inr _ _ _ _ _ _ (np_random_seed_ok h g0 g1 Hs)).
  rewrite (bind_inr _ _ _ _ _ _ (np_random_seed_ok h g0' g1 Hs)).
  reflexivity.
Qed.

Lemma gibbs_chain_refused k (g0 : rng P) :
  random_seed P (seed h) = None ->
  gibbs_chain P returns h k g0 = Ran (inl ValueError) g0 [EvSeed (seed h)].
Proof.
  intros Hs. unfold gibbs_chain. apply bind_inl.
  apply np_random_seed_refused. exact Hs.
Qed.

(** What the routine returns: the cells of the arrays from the start of
    the slice on, each recorded by the round of its index. *)
Lemma outputs_recorded (g0 : rng P) ms ss shs g l :
  gibbs_sharpe_student P returns h g0 = Ran (inr (ms, ss, shs)) g l ->
  let N := Z.to_nat (n_iter h) in
  let st := slice_start (burn_in h) N in
  (length ms = N - st /\ length ss = N - st /\ length shs = N - st) /\
  forall i, i < N - st ->
    exists sj gj lj,
      gibbs_chain P returns h (S (st + i)) g0 = Ran (inr sj) gj lj /\
      ms !! i = Some (mu sj) /\ ss !! i = Some (sigma2 sj) /\
      shs !! i = Some (div (mu sj) (sqrt (sigma2 sj))).
Proof.
  intros Hrun N st.
  apply gibbs_sharpe_student_inv in Hrun as (s & Hchain & Hout).
  apply gibbs_chain_inv in Hchain as (g1 & l' & Hseed & Hn & Hloop & ->).
  destruct (samples_recorded returns h _ g1 s g l' (Nat.le_refl _) Hloop)
    as ((Lm & Ls & Lh) & Hcells).
  unfold outputs, py_slice_from in Hout. rewrite Lm, Ls, Lh in Hout.
  fold N st in Hout. injection Hout as -> -> ->.
  rewrite !length_drop, Lm, Ls, Lh. fold N. split; [auto |].
  intros i Hi. destruct (Hcells (st + i) ltac:(fold N; lia))
    as (sj & gj & lj & Hj & Hm & Hs & Hsh).
  exists sj, gj, (EvSeed (seed h) :: lj).
  split; [eapply gibbs_chain_yields; eassumption |].
  rewrite !lookup_drop. auto.
Qed.

(** A first round that raises ends the run. *)
Lemma first_round_raises (g0 g1 : rng P) e g l :
  random_seed P (seed h) = Some g1 -> (0 < n_iter h)%Z ->
  gibbs_body P returns h 0 (init_state returns h) g1 = Ran (inl e) g l ->
  gibbs_sharpe_student P returns h g0
  = Ran (inl e) g (EvSeed (seed h) :: l).
Proof.
  intros Hs Hn Hb. apply gibbs_sharpe_student_raises.
  rewrite (gibbs_chain_eq returns h _ g0 g1 Hs ltac:(lia)).
  destruct (Z.to_nat (n_iter h)) as [| k] eqn:HN; [lia |].
  change (for_range (gibbs_body P returns h) 0 (S k) (init_state returns h))
    with (gibbs_body P returns h 0 (init_state returns h)
          ≫= for_range (gibbs_body P returns h) 1 k).
  rewrite (bind_inl _ _ _ _ _ _ Hb). reflexivity.
Qed.

(** From a positive sample variance the run goes through all its rounds. *)
Lemma run_completes (g0 g1 : rng P) :
  SamplerLaws P -> drawable returns h -> returns <> [] ->
  is_pos (var 1 returns) ->
  random_seed P (seed h) = Some g1 -> (0 <= n_iter h)%Z ->
  exists s g l,
    gibbs_chain P returns h (Z.to_nat (n_iter h)) g0
      = Ran (inr s) g (EvSeed (seed h) :: l) /\
    gibbs_sharpe_student P returns h g0
      = Ran (inr (outputs h s)) g (EvSeed (seed h) :: l) /\
    healthy (length returns) s /\
    rounds_log (length returns) (Z.to_nat (n_iter h)) l.
Proof.
  intros HL Hdr Hne Hvar Hs Hn.
  destruct (rounds_complete returns h (Z.to_nat (n_iter h))
              (init_state returns h) g1 HL Hdr
              (init_state_healthy returns h (dr_returns _ _ Hdr) Hne Hvar))
    as (s & g & l & Hloop & Hh).
  exists s, g, l.
  assert (Hc := gibbs_chain_yields returns h _ g0 g1 s g l Hs Hn Hloop).
  split; [exact Hc |]. split; [apply gibbs_sharpe_student_yields; exact Hc |].
  split; [exact Hh |]. eapply rounds_logged. exact Hloop.
Qed.


End Run.

(** ** Degenerate observations *)

Section Degenerate.

#[local] Open Scope R_scope.

Context {P : Sampler}.
Variable h : hyper.

Lemma div_zero_by_zero v : v = 0 -> div (Fin v) (Fin 0) = NaN.
Proof. intros ->. apply div_zero_zero. Qed.

Lemma Rsum_squares_nonneg (m : R) (xs : list R) :
  0 <= Rsum (map (fun x => (x - m) * (x - m)) xs).
Proof.
  apply Rsum_nonneg, List.Forall_map, List.Forall_forall.
  intros x _. apply Rle_0_sqr.
Qed.


(** When it is zero, the first observation is the mean, and the first
    round divides zero by zero. *)
Lemma zero_variance_nan_scale (xs : list R) :
  (2 <= length xs)%nat -> sample_variance xs = 0 ->
  NaN ∈ scale_spec (map Fin xs) h (Fin (sample_mean xs)) (Fin 0).
Proof.
  intros Hn Hvar.
  assert (Hle : 2 <= INR (length xs)) by (apply (le_INR 2); exact Hn).
  unfold sample_variance in Hvar.
  assert (Hsum : Rsum (map (fun x => (x - sample_mean xs) * (x - sample_mean xs)) xs) = 0).
  { apply (Rmult_eq_reg_r (/ (INR (length xs) - 1))).
    - rewrite Rmult_0_l. exact Hvar.
    - apply Rinv_neq_0_compat. lra. }
  destruct xs as [| x xs']; [simpl in Hn; lia |].
  set (m := sample_mean (x :: xs')) in *. simpl in Hsum.
  pose proof (Rsum_squares_nonneg m xs') as Hrest.
  pose proof (Rle_0_sqr (x - m)) as Hsq. unfold Rsqr in Hsq.
  assert (H0 : (x + - m) * (x + - m) = 0).
  { replace (x + - m) with (x - m) by lra. lra. }
  unfold scale_spec. cbn [map].
  change (square (sub (Fin x) (Fin m))) with (Fin ((x + - m) * (x + - m))).
  rewrite (div_zero_by_zero _ H0), add_NaN_r, div_NaN_r.
  apply list_elem_of_here.
Qed.


(** That of no observation too. *)
Lemma var_nil : var 1 [] = NaN.
Proof.
  unfold var. cbn [map length]. unfold sum. cbn [foldl].
  change (of_Z (Z.max (Z.of_nat 0 - 1) 0)) with (Fin 0). apply div_zero_zero.
Qed.


Lemma nan_variance_nan_scale (returns : list float64) (m : float64) :
  returns <> [] -> NaN ∈ scale_spec returns h m NaN.
Proof.
  intros Hne. destruct returns as [| r rs]; [contradiction |].
  unfold scale_spec. cbn [map]. rewrite div_NaN_r, add_NaN_r, div_NaN_r.
  apply list_elem_of_here.
Qed.

(** With finite observations of zero sample variance the first round
    raises at its Gamma draw, so that no round is ever completed. *)
Lemma zero_variance_first_round (xs : list R) (g1 : rng P) :
  SamplerLaws P -> (2 <= length xs)%nat -> sample_variance xs = 0 ->
  gibbs_body P (map Fin xs) h 0 (init_state (map Fin xs) h) g1
  = Ran (inl ValueError) g1
        [EvGamma (shape_spec h)
                 (scale_spec (map Fin xs) h (Fin (sample_mean xs)) (Fin 0))].
Proof.
  intros HL Hn Hvar.
  assert (Hmu : mu (init_state (map Fin xs) h) = Fin (sample_mean xs)).
  { simpl. apply mean_Fin. intros ->. simpl in Hn. lia. }
  assert (Hsg : sigma2 (init_state (map Fin xs) h) = Fin 0).
  { simpl. rewrite var_Fin by exact Hn. f_equal. exact Hvar. }
  rewrite <- Hmu, <- Hsg. apply gibbs_body_nan_scale; [exact HL |].
  rewrite Hmu, Hsg. apply zero_variance_nan_scale; assumption.
Qed.


End Degenerate.

(** ** A burn-in that leaves nothing *)

Section LateBurnIn.

Context {P : Sampler}.


End LateBurnIn.

(** ** How a round and the loop can end *)

Section Outcomes.

Context {P : Sampler}.
Variable returns : list float64.
Variable h : hyper.

(** Unless [tau2] is zero, a round either makes its three draws and
    returns, or raises [ValueError] at the first request a primitive
    refuses. *)
Lemma gibbs_body_outcome i s (g : rng P) :
  tau2 h <> Fin 0 ->
  (exists lam m sg g',
     gibbs_body P returns h i s g
     = Ran (inr (round_result i s lam m sg)) g' (round_events returns h s lam m)) \/
  (exists g' stop,
     refused_round P returns h s g g' stop /\
     gibbs_body P returns h i s g = Ran (inl ValueError) g' stop).
Proof.
  intros Htau.
  assert (H2 : Fin 2 <> Fin 0) by (intros [= H2]; lra).
  destruct (gamma_rvs P (shape_spec h) (scale_spec returns h (mu s) (sigma2 s)) g)
    as [[lam g1] |] eqn:Hgam.
  - destruct (random_normal P (mu_n_spec returns h lam (sigma2 s))
                (sqrt (tau2_n_spec h lam (sigma2 s))) g1)
      as [[m g2] |] eqn:Hnorm.
    + destruct (invgamma_rvs P (a_n_spec returns h) (b_n_spec returns h lam m) g2)
        as [[sg g3] |] eqn:Hinv.
      * left. exists lam, m, sg, g3. apply (gibbs_body_run returns h i s g lam g1 m g2 sg g3); assumption.
      * right. exists g2, (round_events returns h s lam m).
        split; [eapply refused_invgamma; eassumption |].
        unfold gibbs_body. rewrite gamma_scale_spec.
        change (round_events returns h s lam m)
          with ([] ++ [EvGamma (shape_spec h) (scale_spec returns h (mu s) (sigma2 s))]
                ++ [] ++ []
                ++ [EvNormal (mu_n_spec returns h lam (sigma2 s))
                             (sqrt (tau2_n_spec h lam (sigma2 s)))]
                ++ [] ++ [EvInvGamma (a_n_spec returns h) (b_n_spec returns h lam m)]).
        eapply bind_yields; [apply py_truediv_ok; exact H2 |].
        eapply bind_yields; [apply call_some; exact Hgam |].
        eapply bind_yields; [apply py_truediv_ok; exact Htau |].
        eapply bind_yields; [apply py_truediv_ok; exact Htau |].
        eapply bind_yields; [apply call_some; exact Hnorm |].
        eapply bind_yields; [apply py_truediv_ok; exact H2 |].
        apply bind_inl. apply call_none. exact Hinv.
    + right. eexists g1, _. split; [eapply refused_normal; eassumption |].
      unfold gibbs_body. rewrite gamma_scale_spec.
      change [EvGamma (shape_spec h) (scale_spec returns h (mu s) (sigma2 s));
              EvNormal (mu_n_spec returns h lam (sigma2 s))
                       (sqrt (tau2_n_spec h lam (sigma2 s)))]
        with ([] ++ [EvGamma (shape_spec h) (scale_spec returns h (mu s) (sigma2 s))]
              ++ [] ++ []
              ++ [EvNormal (mu_n_spec returns h lam (sigma2 s))
                           (sqrt (tau2_n_spec h lam (sigma2 s)))]).
      eapply bind_yields; [apply py_truediv_ok; exact H2 |].
      eapply bind_yields; [apply call_some; exact Hgam |].
      eapply bind_yields; [apply py_truediv_ok; exact Htau |].
      eapply bind_yields; [apply py_truediv_ok; exact Htau |].
      apply bind_inl. apply call_none. exact Hnorm.
  - right. eexists g, _. split; [apply refused_gamma; exact Hgam |].
    unfold gibbs_body. rewrite gamma_scale_spec.
    change [EvGamma (shape_spec h) (scale_spec returns h (mu s) (sigma2 s))]
      with ([] ++ [EvGamma (shape_spec h) (scale_spec returns h (mu s) (sigma2 s))]).
    eapply bind_yields; [apply py_truediv_ok; exact H2 |].
    apply bind_inl. apply call_none. exact Hgam.
Qed.

(** The loop either goes through all its rounds, or stops in the first
    round that raises. *)
Lemma for_range_outcome {A} (body : nat -> A -> M P A) (s0 : A) (g0 : rng P) N :
  (exists s g l, for_range body 0 N s0 g0 = Ran (inr s) g l) \/
  (exists k s g l e g' l',
     k < N /\
     for_range body 0 k s0 g0 = Ran (inr s) g l /\
     body k s g = Ran (inl e) g' l' /\
     for_range body 0 N s0 g0 = Ran (inl e) g' (l ++ l')).
Proof.
  induction N as [| N [(s & g & l & HN) | (k & s & g & l & e & g' & l' & Hk & Hpre & Hb & HN)]].
  - left. exists s0, g0, []. reflexivity.
  - destruct (body N s g) as [[e | s'] g' l'] eqn:Hb.
    + right. exists N, s, g, l, e, g', l'.
      split; [lia |]. split; [exact HN |]. split; [exact Hb |].
      rewrite for_range_snoc. eapply bind_yields; [exact HN | exact Hb].
    + left. exists s', g', (l ++ l').
      rewrite for_range_snoc. eapply bind_yields; [exact HN | exact Hb].
  - right. exists k, s, g, l, e, g', l'.
    split; [lia |]. split; [exact Hpre |]. split; [exact Hb |].
    rewrite for_range_snoc. apply bind_inl. exact HN.
Qed.

(** With [0 <= n_iter <= burn_in] the routine ends as its chain of
    [n_iter] rounds ends, with three empty sequences where the chain
    reaches its last state. *)
Lemma late_burn_in_run (g0 : rng P) :
  (0 <= n_iter h <= burn_in h)%Z ->
  gibbs_sharpe_student P returns h g0
  = let r := gibbs_chain P returns h (Z.to_nat (n_iter h)) g0 in
    Ran (match res r with inl e => inl e | inr _ => inr ([], [], []) end)
        (gen r) (log r).
Proof.
  intros Hb. rewrite gibbs_sharpe_student_eq. cbv zeta.
  destruct (gibbs_chain P returns h (Z.to_nat (n_iter h)) g0)
    as [[e | s] g l] eqn:Hchain; simpl; [reflexivity |].
  f_equal. f_equal.
  apply gibbs_chain_inv in Hchain as (g1 & l' & _ & _ & Hloop & _).
  destruct (samples_recorded returns h _ g1 s g l' (Nat.le_refl _) Hloop)
    as ((Lm & Ls & Lh) & _).
  unfold outputs, py_slice_from. rewrite Lm, Ls, Lh.
  rewrite slice_start_beyond by lia.
  rewrite !drop_ge by lia. reflexivity.
Qed.

End Outcomes.

(** ** The properties of the routine *)

Section Properties.

Context {P : Sampler}.

(** C6.  Before the first iteration the chain state is: [mu] the sample
    mean of the returns, [sigma2] their unbiased sample variance (the sum
    of the squared deviations divided by [n - 1]), and the latent scale
    vector all ones, of length [n].  Stated for [n >= 2] finite returns,
    on a generator that accepts the seed and a non-negative [n_iter]. *)
Theorem initial_state_is_sample_statistics
        (xs : list R) (h : hyper) (g0 g1 : rng P) :
  2 <= length xs -> (0 <= n_iter h)%Z ->
  random_seed P (seed h) = Some g1 ->
  exists s0,
    gibbs_chain P (map Fin xs) h 0 g0 = Ran (inr s0) g1 [EvSeed (seed h)] /\
    mu s0 = Fin (sample_mean xs) /\
    sigma2 s0 = Fin (sample_variance xs) /\
    lambdas s0 = replicate (length xs) (Fin 1).
Proof.
  intros Hn Hiter Hs. exists (init_state (map Fin xs) h).
  split; [apply (gibbs_chain_yields _ _ 0 g0 g1); auto |].
  simpl. rewrite length_map. split; [| split; [apply var_Fin; exact Hn | reflexivity]].
  apply mean_Fin. intros ->. simpl in Hn. lia.
Qed.

(** C5.  The routine is deterministic given the seed: two invocations on
    the same returns and hyperparameters, whatever state the global
    generator was in before each, end alike (same sequences or same
    exception) after the same requests to the generator, and leave the
    generator in the same state when it accepted the seed. *)
Theorem seeded_run_is_deterministic
        (returns : list float64) (h : hyper) (g0 g0' : rng P) :
  res (gibbs_sharpe_student P returns h g0)
  = res (gibbs_sharpe_student P returns h g0') /\
  log (gibbs_sharpe_student P returns h g0)
  = log (gibbs_sharpe_student P returns h g0') /\
  (is_Some (random_seed P (seed h)) ->
   gibbs_sharpe_student P returns h g0 = gibbs_sharpe_student P returns h g0').
Proof.
  rewrite !gibbs_sharpe_student_eq.
  destruct (random_seed P (seed h)) as [g1 |] eqn:Hs.
  - rewrite (gibbs_chain_seeded returns h _ g0 g0' g1 Hs). auto.
  - rewrite !gibbs_chain_refused by exact Hs. simpl.
    split; [reflexivity | split; [reflexivity |]].
    intros [g1 Hg1]. discriminate.
Qed.

(** C2.  When [n_iter > 0] and [0 <= burn_in < n_iter], each of the three
    returned sequences has length exactly [n_iter - burn_in]. *)
Theorem output_lengths
        (returns : list float64) (h : hyper) (g0 : rng P) ms ss shs g l :
  (0 < n_iter h)%Z -> (0 <= burn_in h < n_iter h)%Z ->
  gibbs_sharpe_student P returns h g0 = Ran (inr (ms, ss, shs)) g l ->
  Z.of_nat (length ms) = (n_iter h - burn_in h)%Z /\
  Z.of_nat (length ss) = (n_iter h - burn_in h)%Z /\
  Z.of_nat (length shs) = (n_iter h - burn_in h)%Z.
Proof.
  intros Hn Hb Hrun.
  destruct (outputs_recorded returns h g0 ms ss shs g l Hrun)
    as ((Lm & Ls & Lh) & _).
  rewrite slice_start_nonneg in Lm, Ls, Lh by lia.
  rewrite Lm, Ls, Lh. lia.
Qed.

(** C3.  At every index of the returned sequences the Sharpe sample is
    the [mu] sample divided by the square root of the [sigma2] sample of
    that index (the three sequences have one length). *)
Theorem sharpe_is_mu_over_sqrt_sigma2
        (returns : list float64) (h : hyper) (g0 : rng P) ms ss shs g l :
  gibbs_sharpe_student P returns h g0 = Ran (inr (ms, ss, shs)) g l ->
  length ms = length shs /\ length ss = length shs /\
  forall i m v,
    ms !! i = Some m -> ss !! i = Some v -> shs !! i = Some (div m (sqrt v)).
Proof.
  intros Hrun.
  destruct (outputs_recorded returns h g0 ms ss shs g l Hrun)
    as ((Lm & Ls & Lh) & Hcells).
  split; [congruence | split; [congruence |]].
  intros i m v Hm Hv.
  assert (Hi := lookup_lt_Some _ _ _ Hm). rewrite Lm in Hi.
  destruct (Hcells i Hi) as (sj & _ & _ & _ & Hm' & Hv' & Hsh).
  rewrite Hm in Hm'. rewrite Hv in Hv'.
  injection Hm' as ->. injection Hv' as ->. exact Hsh.
Qed.

(** C7.  With [0 <= burn_in < n_iter], what is returned is the full chain
    of [n_iter] entries (what the same run returns with no burn-in, entry
    [k] being the [mu], the [sigma2] and their Sharpe ratio that round [k]
    left) without its first [burn_in] entries, in order and with the
    three sequences cut alike. *)
Theorem burn_in_discards_a_prefix
        (returns : list float64) (h : hyper) (g0 : rng P) ms ss shs g l :
  (0 <= burn_in h < n_iter h)%Z ->
  gibbs_sharpe_student P returns h g0 = Ran (inr (ms, ss, shs)) g l ->
  exists fm fs fsh,
    gibbs_sharpe_student P returns (with_burn_in 0 h) g0
      = Ran (inr (fm, fs, fsh)) g l /\
    (length fm = Z.to_nat (n_iter h) /\ length fs = Z.to_nat (n_iter h) /\
     length fsh = Z.to_nat (n_iter h)) /\
    (forall k, k < Z.to_nat (n_iter h) ->
       exists sk gk lk,
         gibbs_chain P returns h (S k) g0 = Ran (inr sk) gk lk /\
         fm !! k = Some (mu sk) /\ fs !! k = Some (sigma2 sk) /\
         fsh !! k = Some (div (mu sk) (sqrt (sigma2 sk)))) /\
    ms = drop (Z.to_nat (burn_in h)) fm /\
    ss = drop (Z.to_nat (burn_in h)) fs /\
    shs = drop (Z.to_nat (burn_in h)) fsh.
Proof.
  intros Hb Hrun.
  apply gibbs_sharpe_student_inv in Hrun as (s & Hchain & Hout).
  assert (Hfull : gibbs_sharpe_student P returns (with_burn_in 0 h) g0
                  = Ran (inr (mu_samples s, sigma2_samples s, sharpe_samples s)) g l).
  { rewrite (gibbs_sharpe_student_yields returns (with_burn_in 0 h) g0 s g l Hchain).
    unfold outputs, py_slice_from. simpl.
    rewrite !slice_start_nonneg by lia. reflexivity. }
  destruct (outputs_recorded returns (with_burn_in 0 h) g0 _ _ _ g l Hfull)
    as ((Lm & Ls & Lh) & Hcells).
  simpl in Lm, Ls, Lh, Hcells.
  rewrite slice_start_nonneg in Lm, Ls, Lh, Hcells by lia.
  simpl in Lm, Ls, Lh, Hcells. rewrite Nat.sub_0_r in Lm, Ls, Lh, Hcells.
  exists (mu_samples s), (sigma2_samples s), (sharpe_samples s).
  split; [exact Hfull |]. split; [auto |]. split; [exact Hcells |].
  unfold outputs, py_slice_from in Hout. rewrite Lm, Ls, Lh in Hout.
  rewrite slice_start_nonneg in Hout by lia.
  injection Hout as -> -> ->. auto.
Qed.

(** C10.  With [burn_in >= n_iter] the routine raises nothing on that
    account.  It ends as the same run with no burn-in ends, after the same
    requests to the generator.  Whenever its chain of [n_iter] rounds
    reaches its last state it returns, and what it returns then is three
    empty sequences; and when it returns, it has seeded the generator and
    gone through all [n_iter] rounds, each with its Gamma, Normal and
    Inverse-Gamma request. *)
Theorem burn_in_beyond_the_chain
        (returns : list float64) (h : hyper) (g0 : rng P) :
  (0 <= n_iter h <= burn_in h)%Z ->
  res (gibbs_sharpe_student P returns h g0)
  = match res (gibbs_sharpe_student P returns (with_burn_in 0 h) g0) with
    | inl e => inl e
    | inr _ => inr ([], [], [])
    end /\
  gen (gibbs_sharpe_student P returns h g0)
  = gen (gibbs_sharpe_student P returns (with_burn_in 0 h) g0) /\
  log (gibbs_sharpe_student P returns h g0)
  = log (gibbs_sharpe_student P returns (with_burn_in 0 h) g0) /\
  (forall s g l,
     gibbs_chain P returns h (Z.to_nat (n_iter h)) g0 = Ran (inr s) g l ->
     gibbs_sharpe_student P returns h g0 = Ran (inr ([], [], [])) g l) /\
  (forall out g l,
     gibbs_sharpe_student P returns h g0 = Ran (inr out) g l ->
     out = ([], [], []) /\
     exists g1 s l',
       random_seed P (seed h) = Some g1 /\
       for_range (gibbs_body P returns h) 0 (Z.to_nat (n_iter h))
                 (init_state returns h) g1 = Ran (inr s) g l' /\
       l = EvSeed (seed h) :: l' /\
       rounds_log (length returns) (Z.to_nat (n_iter h)) l').
Proof.
  intros Hb.
  assert (Hrel :
    res (gibbs_sharpe_student P returns h g0)
    = match res (gibbs_sharpe_student P returns (with_burn_in 0 h) g0) with
      | inl e => inl e
      | inr _ => inr ([], [], [])
      end /\
    gen (gibbs_sharpe_student P returns h g0)
    = gen (gibbs_sharpe_student P returns (with_burn_in 0 h) g0) /\
    log (gibbs_sharpe_student P returns h g0)
    = log (gibbs_sharpe_student P returns (with_burn_in 0 h) g0)).
  { rewrite (late_burn_in_run returns h g0 Hb).
    rewrite (gibbs_sharpe_student_eq returns (with_burn_in 0 h) g0).
    rewrite gibbs_chain_burn_in.
    change (n_iter (with_burn_in 0 h)) with (n_iter h). cbv zeta.
    destruct (gibbs_chain P returns h (Z.to_nat (n_iter h)) g0)
      as [[e | s] g l]; simpl; auto. }
  destruct Hrel as (Hres & Hgen & Hlog).
  split; [exact Hres |]. split; [exact Hgen |]. split; [exact Hlog |]. split.
  - intros s g l Hchain.
    rewrite (late_burn_in_run returns h g0 Hb), Hchain. reflexivity.
  - intros out g l Hrun.
    rewrite (late_burn_in_run returns h g0 Hb) in Hrun. cbv zeta in Hrun.
    destruct (gibbs_chain P returns h (Z.to_nat (n_iter h)) g0)
      as [[e | s] g' l0] eqn:Hchain; simpl in Hrun; [discriminate |].
    injection Hrun as <- <- <-. split; [reflexivity |].
    apply gibbs_chain_inv in Hchain as (g1 & l' & Hs & _ & Hloop & ->).
    exists g1, s, l'. split; [exact Hs |]. split; [exact Hloop |].
    split; [reflexivity |]. eapply rounds_logged. exact Hloop.
Qed.

(** C1.  Every round [k < n_iter] that the chain goes through makes its
    three draws in this order, each on the generator state the one before
    left: the [n] latent scales from Gamma with shape [(nu+1)/2] and
    scales [2/(nu + (r_i - mu)^2/sigma2)] on the [mu] and [sigma2] the
    round found; then [mu'] from Normal([mu_n], [sqrt tau2_n]) computed
    from these latent scales and the [sigma2] the round found; then
    [sigma2'] from Inverse-Gamma with shape [a0 + n/2] and scale
    [b0 + 0.5 * sum(lambda_i * (r_i - mu')^2)].  A run that returns went
    through every such round. *)
Theorem update_cycle_order
        (returns : list float64) (h : hyper) (g0 : rng P) (k : nat) :
  k < Z.to_nat (n_iter h) ->
  (forall s' g' l',
     gibbs_chain P returns h (S k) g0 = Ran (inr s') g' l' ->
     exists s g l g1 g2,
       gibbs_chain P returns h k g0 = Ran (inr s) g l /\
       gamma_rvs P (shape_spec h) (scale_spec returns h (mu s) (sigma2 s)) g
         = Some (lambdas s', g1) /\
       random_normal P (mu_n_spec returns h (lambdas s') (sigma2 s))
                     (sqrt (tau2_n_spec h (lambdas s') (sigma2 s))) g1
         = Some (mu s', g2) /\
       invgamma_rvs P (a_n_spec returns h)
                    (b_n_spec returns h (lambdas s') (mu s')) g2
         = Some (sigma2 s', g') /\
       l' = l ++ round_events returns h s (lambdas s') (mu s')) /\
  (forall out g l,
     gibbs_sharpe_student P returns h g0 = Ran (inr out) g l ->
     exists s' g' l', gibbs_chain P returns h (S k) g0 = Ran (inr s') g' l').
Proof.
  intros Hk. split.
  - intros s' g' l' Hchain.
    apply gibbs_chain_inv in Hchain as (g1 & l1 & Hs & Hn & Hloop & ->).
    apply for_range_snoc_inv in Hloop as (s & g & l & l2 & Hprev & Hb & ->).
    apply gibbs_body_inv in Hb as (lam & g2 & m & g3 & sg & Hgam & Hnorm & Hinv & -> & ->).
    exists s, g, (EvSeed (seed h) :: l), g2, g3. simpl.
    split; [eapply gibbs_chain_yields; eassumption |]. auto.
  - intros out g l Hrun.
    apply gibbs_sharpe_student_inv in Hrun as (s & Hchain & _).
    apply gibbs_chain_inv in Hchain as (g1 & l1 & Hs & Hn & Hloop & _).
    replace (Z.to_nat (n_iter h)) with (S k + (Z.to_nat (n_iter h) - S k))
      in Hloop by lia.
    apply for_range_prefix in Hloop as (s1 & g2 & l2 & Hloop).
    exists s1, g2, (EvSeed (seed h) :: l2).
    eapply gibbs_chain_yields; eassumption.
Qed.


(** C9, amended.  On every input with [n_iter >= 0] and [tau2] not zero
    (every valid input is one) whose seed the generator accepts, the
    routine either returns after executing the update cycle exactly
    [n_iter] times, each iteration asking for [n] Gamma variates, then one
    Normal, then one Inverse-Gamma variate, or stops with [ValueError] in
    the first iteration in which a sampling primitive refuses a request,
    at that request, after the complete iterations before it.  There is
    no other early termination and no retry. *)
Theorem runs_until_a_sampler_refuses
        (returns : list float64) (h : hyper) (g0 g1 : rng P) :
  random_seed P (seed h) = Some g1 -> (0 <= n_iter h)%Z -> tau2 h <> Fin 0 ->
  (exists s g l,
     for_range (gibbs_body P returns h) 0 (Z.to_nat (n_iter h))
               (init_state returns h) g1 = Ran (inr s) g l /\
     gibbs_sharpe_student P returns h g0
       = Ran (inr (outputs h s)) g (EvSeed (seed h) :: l) /\
     rounds_log (length returns) (Z.to_nat (n_iter h)) l /\
     length l = 3 * Z.to_nat (n_iter h) /\
     gamma_draws l = Z.to_nat (n_iter h) * length returns /\
     normal_draws l = Z.to_nat (n_iter h) /\
     invgamma_draws l = Z.to_nat (n_iter h)) \/
  (exists k s g l g' stop,
     k < Z.to_nat (n_iter h) /\
     for_range (gibbs_body P returns h) 0 k (init_state returns h) g1
       = Ran (inr s) g l /\
     rounds_log (length returns) k l /\
     refused_round P returns h s g g' stop /\
     gibbs_sharpe_student P returns h g0
       = Ran (inl ValueError) g' (EvSeed (seed h) :: l ++ stop)).
Proof.
  intros Hs Hn Htau.
  destruct (for_range_outcome (gibbs_body P returns h) (init_state returns h) g1
              (Z.to_nat (n_iter h)))
    as [(s & g & l & Hloop)
       | (k & s & g & l & e & g' & l' & Hk & Hpre & Hb & Hloop)].
  - left. exists s, g, l. split; [exact Hloop |].
    split; [apply gibbs_sharpe_student_yields;
            exact (gibbs_chain_yields returns h _ g0 g1 s g l Hs Hn Hloop) |].
    pose proof (rounds_logged returns h _ _ g1 s g l Hloop) as Hlog.
    split; [exact Hlog |]. apply rounds_log_draws. exact Hlog.
  - right.
    destruct (gibbs_body_outcome returns h k s g Htau)
      as [(lam & m & sg & g2 & Hok) | (g2 & stop & Href & Hfail)].
    + rewrite Hok in Hb. discriminate.
    + rewrite Hfail in Hb. injection Hb as <- <- <-.
      exists k, s, g, l, g2, stop.
      split; [exact Hk |]. split; [exact Hpre |].
      split; [exact (rounds_logged returns h _ _ g1 s g l Hpre) |].
      split; [exact Href |].
      apply gibbs_sharpe_student_raises.
      rewrite (gibbs_chain_eq returns h _ g0 g1 Hs Hn), Hloop. reflexivity.
Qed.


End Properties.

(** ** The properties on the inputs of [Ex] *)

(** The run of [Ex.two] with the hyperparameters of [Ex.defaults] and any
    burn-in completes. *)
Lemma two_completes (b : Z) :
  exists s g l,
    gibbs_sharpe_student Fixed.sampler Ex.two (with_burn_in b Ex.defaults) 0%nat
    = Ran (inr (outputs (with_burn_in b Ex.defaults) s)) g (EvSeed 42 :: l).
Proof.
  destruct (run_completes (P := Fixed.sampler) Ex.two (with_burn_in b Ex.defaults) 0%nat 0%nat FixedFacts.sampler_laws
              (well_formed_drawable _ _ (ExFacts.two_well_formed b 3))
              ltac:(discriminate) ExFacts.var_two_pos ExFacts.seed_accepted
              ltac:(simpl; lia))
    as (s & g & l & _ & Hrun & _ & _).
  exists s, g, l. exact Hrun.
Qed.

Lemma initial_state_is_sample_statistics_witness :
  exists s0,
    gibbs_chain Fixed.sampler (map Fin [1; 2]%R) Ex.defaults 0 0%nat
      = Ran (P := Fixed.sampler) (inr s0) 0%nat [EvSeed 42] /\
    mu s0 = Fin (sample_mean [1; 2]%R) /\
    sigma2 s0 = Fin (sample_variance [1; 2]%R) /\
    lambdas s0 = replicate 2 (Fin 1).
Proof.
  apply (initial_state_is_sample_statistics (P := Fixed.sampler) [1; 2]%R Ex.defaults 0%nat 0%nat).
  - simpl. lia.
  - simpl. lia.
  - reflexivity.
Defined.

Lemma output_lengths_witness :
  exists ms ss shs g l,
    gibbs_sharpe_student Fixed.sampler Ex.two Ex.defaults 0%nat
      = Ran (inr (ms, ss, shs)) g l /\
    Z.of_nat (length ms) = 2%Z /\ Z.of_nat (length ss) = 2%Z /\
    Z.of_nat (length shs) = 2%Z.
Proof.
  destruct (two_completes 1) as (s & g & l & Hrun).
  destruct (outputs (with_burn_in 1 Ex.defaults) s) as [[ms ss] shs].
  exists ms, ss, shs, g, (EvSeed 42 :: l). split; [exact Hrun |].
  apply (output_lengths (P := Fixed.sampler) Ex.two Ex.defaults 0%nat ms ss shs g
                        (EvSeed 42 :: l)).
  - simpl. lia.
  - simpl. lia.
  - exact Hrun.
Defined.

Lemma sharpe_is_mu_over_sqrt_sigma2_witness :
  exists ms ss shs g l,
    gibbs_sharpe_student Fixed.sampler Ex.two Ex.defaults 0%nat
      = Ran (inr (ms, ss, shs)) g l /\
    length ms = length shs /\ length ss = length shs /\
    forall i m v,
      ms !! i = Some m -> ss !! i = Some v -> shs !! i = Some (div m (sqrt v)).
Proof.
  destruct (two_completes 1) as (s & g & l & Hrun).
  destruct (outputs (with_burn_in 1 Ex.defaults) s) as [[ms ss] shs].
  exists ms, ss, shs, g, (EvSeed 42 :: l). split; [exact Hrun |].
  exact (sharpe_is_mu_over_sqrt_sigma2 (P := Fixed.sampler) Ex.two Ex.defaults 0%nat
           ms ss shs g (EvSeed 42 :: l) Hrun).
Defined.

Lemma burn_in_discards_a_prefix_witness :
  exists ms ss shs fm fs fsh g l,
    gibbs_sharpe_student Fixed.sampler Ex.two Ex.defaults 0%nat
      = Ran (inr (ms, ss, shs)) g l /\
    gibbs_sharpe_student Fixed.sampler Ex.two (with_burn_in 0 Ex.defaults) 0%nat
      = Ran (inr (fm, fs, fsh)) g l /\
    length fm = 3 /\ ms = drop 1 fm /\ ss = drop 1 fs /\ shs = drop 1 fsh.
Proof.
  destruct (two_completes 1) as (s & g & l & Hrun).
  destruct (outputs (with_burn_in 1 Ex.defaults) s) as [[ms ss] shs].
  destruct (burn_in_discards_a_prefix (P := Fixed.sampler) Ex.two Ex.defaults 0%nat
              ms ss shs g (EvSeed 42 :: l) ltac:(simpl; lia) Hrun)
    as (fm & fs & fsh & Hfull & (Lm & _ & _) & _ & Hm & Hs & Hsh).
  exists ms, ss, shs, fm, fs, fsh, g, (EvSeed 42 :: l).
  split; [exact Hrun |]. split; [exact Hfull |]. split; [exact Lm |].
  split; [exact Hm |]. split; [exact Hs | exact Hsh].
Defined.

Lemma burn_in_beyond_the_chain_witness :
  exists g l l',
    gibbs_sharpe_student Fixed.sampler Ex.two (with_burn_in 5 Ex.defaults) 0%nat
      = Ran (inr ([], [], [])) g l /\
    l = EvSeed 42 :: l' /\ rounds_log 2 3 l'.
Proof.
  destruct (two_completes 5) as (s & g & l & Hrun).
  destruct (burn_in_beyond_the_chain (P := Fixed.sampler) Ex.two
              (with_burn_in 5 Ex.defaults) 0%nat ltac:(simpl; lia))
    as (_ & _ & _ & _ & Hreturned).
  destruct (Hreturned _ g (EvSeed 42 :: l) Hrun)
    as (Hout & g1 & s' & l' & _ & _ & Hl & Hlog).
  exists g, (EvSeed 42 :: l), l'.
  rewrite Hout in Hrun. split; [exact Hrun |]. split; [exact Hl | exact Hlog].
Defined.

Lemma update_cycle_order_witness :
  exists s' g' l',
    gibbs_chain Fixed.sampler Ex.two Ex.defaults 1 0%nat = Ran (inr s') g' l' /\
    exists s g l g1 g2,
      gibbs_chain Fixed.sampler Ex.two Ex.defaults 0 0%nat = Ran (inr s) g l /\
      gamma_rvs Fixed.sampler (shape_spec Ex.defaults)
                (scale_spec Ex.two Ex.defaults (mu s) (sigma2 s)) g
        = Some (lambdas s', g1) /\
      random_normal Fixed.sampler (mu_n_spec Ex.two Ex.defaults (lambdas s') (sigma2 s))
                    (sqrt (tau2_n_spec Ex.defaults (lambdas s') (sigma2 s))) g1
        = Some (mu s', g2) /\
      invgamma_rvs Fixed.sampler (a_n_spec Ex.two Ex.defaults)
                   (b_n_spec Ex.two Ex.defaults (lambdas s') (mu s')) g2
        = Some (sigma2 s', g') /\
      l' = l ++ round_events Ex.two Ex.defaults s (lambdas s') (mu s').
Proof.
  destruct (update_cycle_order (P := Fixed.sampler) Ex.two Ex.defaults 0%nat 0
              ltac:(simpl; lia)) as (Hround & Hreached).
  destruct (two_completes 1) as (s & g & l & Hrun).
  destruct (Hreached _ _ _ Hrun) as (s' & g' & l' & Hchain).
  exists s', g', l'. split; [exact Hchain |].
  exact (Hround s' g' l' Hchain).
Defined.


Lemma runs_until_a_sampler_refuses_witness :
  exists s g l,
    gibbs_sharpe_student Fixed.sampler Ex.two Ex.defaults 0%nat
      = Ran (inr (outputs Ex.defaults s)) g (EvSeed 42 :: l) /\
    rounds_log 2 3 l /\ length l = 9 /\
    gamma_draws l = 6 /\ normal_draws l = 3 /\ invgamma_draws l = 3.
Proof.
  destruct (two_completes 1) as (s0 & g0 & l0 & Hrun).
  destruct (runs_until_a_sampler_refuses (P := Fixed.sampler) Ex.two Ex.defaults
              0%nat 0%nat ExFacts.seed_accepted ltac:(simpl; lia)
              ltac:(simpl; intros [= H]; lra))
    as [(s & g & l & _ & Hret & Hlog & Hlen & Hg & Hn & Hi)
       | (k & s & g & l & g' & stop & _ & _ & _ & _ & Hfail)].
  - exists s, g, l. auto 10.
  - exfalso.
    change (with_burn_in 1 Ex.defaults) with Ex.defaults in Hrun.
    rewrite Hrun in Hfail. discriminate Hfail.
Defined.


(** *** Where the statements of the specification fail *)


(** C9, as stated, fails on the same input: the preconditions hold and
    the run ends in the sampler's domain error. *)
Lemma constant_returns_do_not_complete :
  valid Ex.constant Ex.defaults /\
  res (gibbs_sharpe_student Fixed.sampler Ex.constant Ex.defaults 0%nat) = inl ValueError.
Proof.
  split; [exact ExFacts.constant_valid |].
  assert (Hvar : sample_variance [1; 1]%R = 0%R).
  { assert (H := ExFacts.var_constant). change Ex.constant with (map Fin [1; 1]%R) in H.
    rewrite var_Fin in H by (simpl; lia). injection H as H. exact H. }
  assert (Hb := zero_variance_first_round (P := Fixed.sampler) Ex.defaults [1; 1]%R 0%nat
                  FixedFacts.sampler_laws ltac:(simpl; lia) Hvar).
  change (map Fin [1; 1]%R) with Ex.constant in Hb.
  rewrite (first_round_raises (P := Fixed.sampler) Ex.constant Ex.defaults 0%nat 0%nat _ _ _
             ExFacts.seed_accepted ltac:(simpl; lia) Hb).
  reflexivity.
Qed.


(** * Further properties of the routine *)

(** ** Failures before the loop *)

Section EarlyFailures.

Context {P : Sampler}.
Variable returns : list float64.
Variable h : hyper.

(** X1.  A negative [n_iter] is refused by the allocation of the sample
    arrays: the routine raises [ValueError] after seeding the generator
    and before any variate is asked for, whatever the returns and the
    priors are.  A seed the generator refuses ends the call in the same
    way, the generator left as it was. *)
Theorem fails_before_the_loop (g0 : rng P) :
  (forall g1, random_seed P (seed h) = Some g1 -> (n_iter h < 0)%Z ->
     gibbs_sharpe_student P returns h g0
     = Ran (inl ValueError) g1 [EvSeed (seed h)]) /\
  (random_seed P (seed h) = None ->
     gibbs_sharpe_student P returns h g0
     = Ran (inl ValueError) g0 [EvSeed (seed h)]).
Proof.
  split.
  - intros g1 Hs Hn. apply gibbs_sharpe_student_raises. unfold gibbs_chain.
    change [EvSeed (seed h)] with ([EvSeed (seed h)] ++ []).
    eapply bind_yields; [apply np_random_seed_ok; exact Hs |].
    apply bind_inl. apply gibbs_init_neg. exact Hn.
  - intros Hs. apply gibbs_sharpe_student_raises.
    apply gibbs_chain_refused. exact Hs.
Qed.

End EarlyFailures.

(** ** The burn-in and the number of iterations *)

Section Lengths.

Context {P : Sampler}.
Variable returns : list float64.
Variable h : hyper.

(** With no burn-in the routine returns its three arrays whole. *)
Lemma run_without_burn_in (g0 : rng P) s g l :
  gibbs_chain P returns h (Z.to_nat (n_iter h)) g0 = Ran (inr s) g l ->
  gibbs_sharpe_student P returns (with_burn_in 0 h) g0
  = Ran (inr (mu_samples s, sigma2_samples s, sharpe_samples s)) g l /\
  length (mu_samples s) = Z.to_nat (n_iter h) /\
  length (sigma2_samples s) = Z.to_nat (n_iter h) /\
  length (sharpe_samples s) = Z.to_nat (n_iter h).
Proof.
  intros Hchain.
  pose proof Hchain as Hc.
  apply gibbs_chain_inv in Hc as (g1 & l' & _ & _ & Hloop & _).
  destruct (samples_recorded returns h _ g1 s g l' (Nat.le_refl _) Hloop)
    as ((Lm & Ls & Lh) & _).
  split; [| auto].
  rewrite (gibbs_sharpe_student_yields returns (with_burn_in 0 h) g0 s g l Hchain).
  unfold outputs, py_slice_from. simpl.
  rewrite !slice_start_nonneg by lia. reflexivity.
Qed.

Lemma slice_start_negative (b : Z) (len : nat) :
  (b < 0)%Z -> slice_start b len = len - Nat.min (Z.to_nat (- b)) len.
Proof.
  intros Hb. unfold slice_start. destruct (Z.ltb_spec b 0); lia.
Qed.

(** X7.  A negative [burn_in] is not refused: the slice then counts from
    the end, and the routine returns the last [min (-burn_in) n_iter]
    entries of the full chain (all of it when [-burn_in >= n_iter]), the
    three sequences cut alike. *)
Theorem negative_burn_in_keeps_the_tail (g0 : rng P) ms ss shs g l :
  (burn_in h < 0)%Z ->
  gibbs_sharpe_student P returns h g0 = Ran (inr (ms, ss, shs)) g l ->
  exists fm fs fsh,
    gibbs_sharpe_student P returns (with_burn_in 0 h) g0
      = Ran (inr (fm, fs, fsh)) g l /\
    length fm = Z.to_nat (n_iter h) /\
    length ms = Nat.min (Z.to_nat (- burn_in h)) (Z.to_nat (n_iter h)) /\
    ms = drop (Z.to_nat (n_iter h) - length ms) fm /\
    ss = drop (Z.to_nat (n_iter h) - length ms) fs /\
    shs = drop (Z.to_nat (n_iter h) - length ms) fsh.
Proof.
  intros Hb Hrun.
  apply gibbs_sharpe_student_inv in Hrun as (s & Hchain & Hout).
  destruct (run_without_burn_in g0 s g l Hchain) as (Hfull & Lm & Ls & Lh).
  exists (mu_samples s), (sigma2_samples s), (sharpe_samples s).
  split; [exact Hfull |]. split; [exact Lm |].
  unfold outputs, py_slice_from in Hout. rewrite Lm, Ls, Lh in Hout.
  rewrite slice_start_negative in Hout by exact Hb.
  injection Hout as -> -> ->.
  rewrite length_drop, Lm.
  replace (Z.to_nat (n_iter h)
           - (Z.to_nat (n_iter h)
              - Nat.min (Z.to_nat (- burn_in h)) (Z.to_nat (n_iter h))))
    with (Nat.min (Z.to_nat (- burn_in h)) (Z.to_nat (n_iter h))) by lia.
  auto.
Qed.

(** *** Rounds do not read the sample arrays *)

Lemma gibbs_body_returns_tau2 i s (g : rng P) s' g' l :
  gibbs_body P returns h i s g = Ran (inr s') g' l -> tau2 h <> Fin 0.
Proof.
  intros Hb Htau. pose proof Hb as Hinv.
  apply gibbs_body_inv in Hinv as (lam & g1 & _ & _ & _ & Hgam & _).
  rewrite (gibbs_body_tau2_zero returns h i s g lam g1 Htau Hgam) in Hb.
  discriminate.
Qed.

(** A round draws the same from two states with the same [mu] and
    [sigma2]. *)
Lemma gibbs_body_same_draws i sA sB (g : rng P) rA g' l :
  mu sA = mu sB -> sigma2 sA = sigma2 sB ->
  gibbs_body P returns h i sA g = Ran (inr rA) g' l ->
  exists lam m sg,
    rA = round_result i sA lam m sg /\
    gibbs_body P returns h i sB g = Ran (inr (round_result i sB lam m sg)) g' l.
Proof.
  intros Hmu Hsg Hb.
  pose proof (gibbs_body_returns_tau2 _ _ _ _ _ _ Hb) as Htau.
  apply gibbs_body_inv in Hb as (lam & g1 & m & g2 & sg & Hgam & Hnorm & Hinv & -> & ->).
  exists lam, m, sg. split; [reflexivity |].
  unfold round_events. rewrite Hmu, Hsg in *.
  exact (gibbs_body_run returns h i sB g lam g1 m g2 sg g' Htau Hgam Hnorm Hinv).
Qed.

Lemma for_range_same_draws k sA sB (g : rng P) rA g' l :
  mu sA = mu sB -> sigma2 sA = sigma2 sB ->
  for_range (gibbs_body P returns h) 0 k sA g = Ran (inr rA) g' l ->
  exists rB,
    for_range (gibbs_body P returns h) 0 k sB g = Ran (inr rB) g' l /\
    mu rA = mu rB /\ sigma2 rA = sigma2 rB.
Proof.
  intros Hmu Hsg. revert rA g' l. induction k as [| k IH]; intros rA g' l Hrun.
  - simpl in Hrun. injection Hrun as <- <- <-. exists sB. auto.
  - apply for_range_snoc_inv in Hrun as (s1 & g1 & l1 & l2 & Hprev & Hb & ->).
    destruct (IH _ _ _ Hprev) as (r1 & Hprev' & Hmu1 & Hsg1).
    destruct (gibbs_body_same_draws _ _ r1 _ _ _ _ Hmu1 Hsg1 Hb)
      as (lam & m & sg & -> & Hb').
    exists (round_result (0 + k) r1 lam m sg). split; [| auto].
    rewrite for_range_snoc. eapply bind_yields; eassumption.
Qed.

(** A chain that reached round [k + d] reached round [k] with a prefix of
    its requests. *)
Lemma for_range_split {A} (body : nat -> A -> M P A) d k s0 g0 s g l :
  for_range body 0 (k + d) s0 g0 = Ran (inr s) g l ->
  exists s1 g1 l1 l2,
    for_range body 0 k s0 g0 = Ran (inr s1) g1 l1 /\ l = l1 ++ l2.
Proof.
  revert s g l. induction d as [| d IH]; intros s g l Hrun.
  - replace (k + 0) with k in Hrun by lia.
    exists s, g, l, []. rewrite app_nil_r. auto.
  - replace (k + S d) with (S (k + d)) in Hrun by lia.
    apply for_range_snoc_inv in Hrun as (s1 & g1 & l1 & l2 & Hk & _ & ->).
    destruct (IH _ _ _ Hk) as (s2 & g2 & l3 & l4 & Hk' & ->).
    exists s2, g2, l3, (l4 ++ l2). rewrite app_assoc. auto.
Qed.

Lemma take_by_cells {A} (a b : list A) (N : nat) :
  length a = N -> N <= length b ->
  (forall j, j < N -> a !! j = b !! j) -> a = take N b.
Proof.
  intros La Lb Hcells. apply list_eq. intros j.
  destruct (Nat.lt_ge_cases j N) as [Hj | Hj].
  - rewrite lookup_take_lt by exact Hj. apply Hcells. exact Hj.
  - rewrite lookup_take_ge by exact Hj. apply lookup_ge_None_2. lia.
Qed.

(** X8.  More iterations extend the chain and change nothing of what came
    before: if the run with [n'] iterations and no burn-in returns, then
    so does the run with any smaller [n_iter] (same returns, priors and
    seed), it returns the first [n_iter] entries of each of the three
    longer sequences, and its requests to the generator are a prefix of
    the requests of the longer run. *)
Theorem more_iterations_extend_the_chain
        (n' : Z) (g0 : rng P) fm' fs' fsh' g' l' :
  (0 <= n_iter h <= n')%Z ->
  gibbs_sharpe_student P returns (with_n_iter n' (with_burn_in 0 h)) g0
    = Ran (inr (fm', fs', fsh')) g' l' ->
  exists g l l2,
    gibbs_sharpe_student P returns (with_burn_in 0 h) g0
      = Ran (inr (take (Z.to_nat (n_iter h)) fm',
                  take (Z.to_nat (n_iter h)) fs',
                  take (Z.to_nat (n_iter h)) fsh')) g l /\
    l' = l ++ l2.
Proof.
  intros Hn Hrun.
  set (N := Z.to_nat (n_iter h)).
  remember (with_n_iter n' (with_burn_in 0 h)) as h' eqn:Hh'.
  assert (En : n_iter h' = n') by (subst h'; reflexivity).
  assert (Es : seed h' = seed h) by (subst h'; reflexivity).
  assert (Eb : burn_in h' = 0%Z) by (subst h'; reflexivity).
  assert (Ebody : gibbs_body P returns h' = gibbs_body P returns h)
    by (subst h'; reflexivity).
  assert (Emu : mu (init_state returns h') = mu (init_state returns h))
    by reflexivity.
  assert (Esg : sigma2 (init_state returns h') = sigma2 (init_state returns h))
    by reflexivity.
  clear Hh'.
  apply gibbs_sharpe_student_inv in Hrun as (s' & Hchain' & Hout).
  apply gibbs_chain_inv in Hchain' as (g1 & l1 & Hs & Hn' & Hloop' & ->).
  destruct (samples_recorded returns h' _ g1 s' g' l1 (Nat.le_refl _) Hloop')
    as ((Lm' & Ls' & Lh') & Hcells').
  rewrite En in Lm', Ls', Lh', Hcells', Hloop'.
  rewrite Ebody in Hcells', Hloop'. rewrite Es in Hs |- *.
  unfold outputs, py_slice_from in Hout. rewrite Lm', Ls', Lh', Eb in Hout.
  rewrite slice_start_nonneg in Hout by lia. simpl in Hout.
  injection Hout as -> -> ->.
  pose proof Hloop' as Hsplit.
  replace (Z.to_nat n') with (N + (Z.to_nat n' - N)) in Hsplit by (unfold N; lia).
  apply for_range_split in Hsplit as (sN' & gN & lN & l2 & HloopN' & ->).
  destruct (for_range_same_draws N (init_state returns h')
              (init_state returns h) g1 sN' gN lN Emu Esg HloopN')
    as (sN & HloopN & _ & _).
  assert (HchainN := gibbs_chain_yields returns h N g0 g1 sN gN lN Hs
                       ltac:(lia) HloopN).
  destruct (run_without_burn_in g0 sN gN (EvSeed (seed h) :: lN) HchainN)
    as (Hfull & Lm & Ls & Lh).
  destruct (samples_recorded returns h N g1 sN gN lN (Nat.le_refl _) HloopN)
    as (_ & Hcells).
  exists gN, (EvSeed (seed h) :: lN), l2. split; [| reflexivity].
  rewrite Hfull.
  assert (Hsame : forall j, j < N ->
            mu_samples sN !! j = mu_samples s' !! j /\
            sigma2_samples sN !! j = sigma2_samples s' !! j /\
            sharpe_samples sN !! j = sharpe_samples s' !! j).
  { intros j Hj.
    destruct (Hcells j Hj) as (sj & gj & lj & Hrj & Hm & Hv & Hsh).
    destruct (Hcells' j ltac:(unfold N in Hj; lia))
      as (sj' & gj' & lj' & Hrj' & Hm' & Hv' & Hsh').
    destruct (for_range_same_draws (S j) (init_state returns h')
                (init_state returns h) g1 sj' gj' lj' Emu Esg Hrj')
      as (rB & HrB & Hmu & Hsg).
    rewrite Hrj in HrB. injection HrB as <- _ _.
    rewrite Hm, Hv, Hsh, Hm', Hv', Hsh', Hmu, Hsg. auto. }
  change (Z.to_nat 0) with 0. rewrite !drop_0.
  rewrite <- (take_by_cells (mu_samples sN) (mu_samples s') N Lm)
    by (fold N; try lia; intros j Hj; apply Hsame; exact Hj).
  rewrite <- (take_by_cells (sigma2_samples sN) (sigma2_samples s') N Ls)
    by (fold N; try lia; intros j Hj; apply Hsame; exact Hj).
  rewrite <- (take_by_cells (sharpe_samples sN) (sharpe_samples s') N Lh)
    by (fold N; try lia; intros j Hj; apply Hsame; exact Hj).
  reflexivity.
Qed.

End Lengths.

(** ** What a round reads, and what it does on no observation *)

Section RoundReads.

Context {P : Sampler}.
Variable returns : list float64.
Variable h : hyper.


(** *** The requests of a computation that goes on *)

Lemma bind_log {A B} (m : M P A) (f : A -> M P B) g :
  exists rest, log ((m ≫= f) g) = log (m g) ++ rest.
Proof.
  unfold mbind, M_bind. destruct (m g) as [[e | x] g1 l1]; simpl.
  - exists []. rewrite app_nil_r. reflexivity.
  - eexists. reflexivity.
Qed.

Lemma bind_log_after {A B} (m : M P A) (f : A -> M P B) g x g1 l1 :
  m g = Ran (inr x) g1 l1 -> log ((m ≫= f) g) = l1 ++ log (f x g1).
Proof. intros Hm. rewrite (bind_inr _ _ _ _ _ _ Hm). reflexivity. Qed.

Lemma call_log {A} ev (f : rng P -> option (A * rng P)) g : log (call ev f g) = [ev].
Proof. unfold call. destruct (f g) as [[x g1] |]; reflexivity. Qed.

(** A round whose Gamma draw returns goes on to its Normal request,
    unless [tau2] is zero. *)
Lemma gibbs_body_log_until_normal i s (g : rng P) lam g1 :
  tau2 h <> Fin 0 ->
  gamma_rvs P (shape_spec h) (scale_spec returns h (mu s) (sigma2 s)) g
    = Some (lam, g1) ->
  exists rest,
    log (gibbs_body P returns h i s g)
    = EvGamma (shape_spec h) (scale_spec returns h (mu s) (sigma2 s))
      :: EvNormal (mu_n_spec returns h lam (sigma2 s))
                  (sqrt (tau2_n_spec h lam (sigma2 s)))
      :: rest.
Proof.
  intros Htau Hgam. unfold gibbs_body. rewrite gamma_scale_spec.
  assert (H2 : Fin 2 <> Fin 0) by (intros [= H2]; lra).
  rewrite (bind_log_after _ _ _ _ _ _ (py_truediv_ok _ _ g H2)).
  cbv beta. unfold gamma_rvs_call, shape_spec in *.
  rewrite (bind_log_after _ _ _ _ _ _ (call_some _ _ g lam g1 Hgam)).
  rewrite (bind_log_after _ _ _ _ _ _ (py_truediv_ok (Fin 1) _ g1 Htau)).
  rewrite (bind_log_after _ _ _ _ _ _ (py_truediv_ok (mu0 h) _ g1 Htau)).
  match goal with
  | |- context [log ((?m ≫= ?f) g1)] => destruct (bind_log m f g1) as (rest & ->)
  end.
  unfold np_random_normal. rewrite call_log. exists rest. reflexivity.
Qed.

End RoundReads.

Section NoObservation.

Context {P : Sampler}.
Variable h : hyper.

(** X11.  An empty returns vector is not refused.  With at least one
    iteration to run, [nu > 0] and [tau2] not zero, the first round asks
    for a Gamma draw with no scale at all, and goes on to ask for a Normal
    variate whose location and scale are both NaN, the initial variance of
    no observation being 0/0. *)
Theorem empty_returns_reach_a_nan_normal_request (g0 g1 : rng P) :
  SamplerLaws P -> random_seed P (seed h) = Some g1 ->
  (0 < n_iter h)%Z -> is_pos (nu h) -> tau2 h <> Fin 0 ->
  exists rest,
    log (gibbs_sharpe_student P [] h g0)
    = EvSeed (seed h) :: EvGamma (shape_spec h) [] :: EvNormal NaN NaN :: rest.
Proof.
  intros HL Hs Hn Hnu Htau.
  rewrite gibbs_sharpe_student_eq. cbv zeta. cbn [log].
  rewrite (gibbs_chain_eq [] h _ g0 g1 Hs ltac:(lia)). cbv zeta. cbn [log].
  destruct (Z.to_nat (n_iter h)) as [| k] eqn:HN; [lia |].
  change (for_range (gibbs_body P [] h) 0 (S k) (init_state [] h))
    with (gibbs_body P [] h 0 (init_state [] h)
          ≫= for_range (gibbs_body P [] h) 1 k).
  destruct (bind_log (gibbs_body P [] h 0 (init_state [] h))
              (for_range (gibbs_body P [] h) 1 k) g1) as (rest1 & ->).
  destruct (gamma_rvs_ok P HL (shape_spec h) [] g1 (shape_spec_pos h Hnu)
              ltac:(constructor)) as (out & g2 & Hgam & Hlen & _).
  destruct out as [| ? ?]; [| discriminate Hlen].
  destruct (gibbs_body_log_until_normal [] h 0 (init_state [] h) g1 [] g2
              Htau Hgam) as (rest2 & ->).
  assert (Etn : tau2_n_spec h [] (sigma2 (init_state [] h)) = NaN).
  { unfold tau2_n_spec. change (sigma2 (init_state [] h)) with (var 1 []).
    rewrite var_nil, div_NaN_r, add_NaN_r, div_NaN_r. reflexivity. }
  unfold mu_n_spec. rewrite Etn.
  exists (rest2 ++ rest1). reflexivity.
Qed.

End NoObservation.

(** ** The further properties on the inputs of [Ex] *)


Lemma negative_burn_in_keeps_the_tail_witness :
  exists ms ss shs fm fs fsh g l,
    gibbs_sharpe_student Fixed.sampler Ex.two (with_burn_in (-1) Ex.defaults) 0%nat
      = Ran (inr (ms, ss, shs)) g l /\
    gibbs_sharpe_student Fixed.sampler Ex.two (with_burn_in 0 Ex.defaults) 0%nat
      = Ran (inr (fm, fs, fsh)) g l /\
    length fm = 3 /\ length ms = 1 /\
    ms = drop 2 fm /\ ss = drop 2 fs /\ shs = drop 2 fsh.
Proof.
  destruct (two_completes (-1)) as (s & g & l & Hrun).
  destruct (outputs (with_burn_in (-1) Ex.defaults) s) as [[ms ss] shs].
  destruct (negative_burn_in_keeps_the_tail (P := Fixed.sampler) Ex.two
              (with_burn_in (-1) Ex.defaults) 0%nat ms ss shs g
              (EvSeed 42 :: l) ltac:(simpl; lia) Hrun)
    as (fm & fs & fsh & Hfull & Lfm & Lms & Hm & Hs & Hsh).
  exists ms, ss, shs, fm, fs, fsh, g, (EvSeed 42 :: l).
  rewrite Lms in Hm, Hs, Hsh.
  split; [exact Hrun |]. split; [exact Hfull |]. split; [exact Lfm |].
  split; [exact Lms |]. split; [exact Hm |]. split; [exact Hs | exact Hsh].
Defined.

Lemma more_iterations_extend_the_chain_witness :
  exists fm' fs' fsh' g' l' g l l2,
    gibbs_sharpe_student Fixed.sampler Ex.two (with_burn_in 0 Ex.defaults) 0%nat
      = Ran (inr (fm', fs', fsh')) g' l' /\
    gibbs_sharpe_student Fixed.sampler Ex.two
        (with_burn_in 0 (with_n_iter 2 Ex.defaults)) 0%nat
      = Ran (inr (take 2 fm', take 2 fs', take 2 fsh')) g l /\
    l' = l ++ l2.
Proof.
  destruct (two_completes 0) as (s & g' & l' & Hrun).
  destruct (outputs (with_burn_in 0 Ex.defaults) s) as [[fm' fs'] fsh'].
  destruct (more_iterations_extend_the_chain (P := Fixed.sampler) Ex.two
              (with_n_iter 2 Ex.defaults) 3 0%nat fm' fs' fsh' g'
              (EvSeed 42 :: l') ltac:(simpl; lia) Hrun)
    as (g & l & l2 & Hshort & Hlog).
  exists fm', fs', fsh', g', (EvSeed 42 :: l'), g, l, l2.
  split; [exact Hrun |]. split; [exact Hshort | exact Hlog].
Defined.


Lemma empty_returns_reach_a_nan_normal_request_witness :
  exists rest,
    log (gibbs_sharpe_student Fixed.sampler [] Ex.defaults 0%nat)
    = EvSeed 42 :: EvGamma (shape_spec Ex.defaults) []
      :: EvNormal NaN NaN :: rest.
Proof.
  apply (empty_returns_reach_a_nan_normal_request (P := Fixed.sampler)
           Ex.defaults 0%nat 0%nat FixedFacts.sampler_laws).
  - reflexivity.
  - simpl. lia.
  - exists 3%R. split; [reflexivity | lra].
  - simpl. intros [= H]. lra.
Defined.
